(** * chunkd: credential resolution and client caching of [fs-aws], and the
      upload constants of [source-aws-v3]

    A shallow embedding of
    - [packages/fs-aws/src/credentials.ts]: [validateConfig],
      [FsConfigFetcher] and [AwsS3CredentialProvider];
    - [packages/source-aws-v3/src/s3.v3.ts]: [OneMegaByte] and
      [S3LikeV3.uploadPartSize].

    Conventions.
    - A JavaScript string is a [string], compared unit by unit.
    - A [URL] is its [href]; [loc.toString()], [loc + ''] and [loc.href] are
      all [href loc].
    - An operation that may throw (or an async one that may reject) returns a
      [Completion]; mutable objects are passed in and handed back.
    - A promise is identified with its settlement: a promise settles once and
      every awaiter sees that one settlement.  When a settlement becomes
      visible matters only for interleaved callers, and is made explicit in
      [Module Interleaved]. *)

From Stdlib Require Import ZArith String List Ascii Bool Lia.
From stdpp Require Import base option list gmap strings pretty.
Import ListNotations.

Local Open Scope string_scope.
Local Open Scope Z_scope.
Local Open Scope list_scope.

(** ** JavaScript values and completions *)

Inductive JsError :=
| Error (message : string)        (* [new Error(message)] *)
| SyntaxError (message : string)  (* thrown by [JSON.parse] *)
| TypeError (message : string)    (* thrown by the runtime *)
| IoError (reason : string).      (* rejection of [FileSystem.read] *)

Inductive Completion (A : Type) :=
| Return (a : A)
| Throw (e : JsError).
Arguments Return {A} a.
Arguments Throw {A} e.

(** [p.then(f)]: a rejection skips [f]; what [f] throws rejects the result. *)
Definition then_ {A B} (p : Completion A) (f : A -> Completion B) : Completion B :=
  match p with
  | Return a => f a
  | Throw e => Throw e
  end.

Record URL := { href : string }.

(** [String.prototype.startsWith]: [startsWith s p] is [s.startsWith(p)]. *)
Fixpoint startsWith (s p : string) {struct p} : bool :=
  match p with
  | EmptyString => true
  | String c p' =>
      match s with
      | EmptyString => false
      | String d s' => if Ascii.eqb d c then startsWith s' p' else false
      end
  end.

(** What a template literal [`${x}`] prints for an optional string and for an
    optional integer: [undefined] prints as the word, an integer in decimal. *)
Definition str_of_optional_string (x : option string) : string :=
  match x with
  | Some s => s
  | None => "undefined"
  end.

Definition str_of_optional_number (x : option Z) : string :=
  match x with
  | Some n => pretty n
  | None => "undefined"
  end.

(** ** Credential descriptors and configuration documents *)

(** Modelled from the spec: the declaration of [AwsCredentialConfig] in
    [types.ts] is not part of the sources at hand.  The fields are the ones
    [credentials.ts] reads, typed as the data model of the specification
    gives them: [externalId], [roleSessionDuration] (integer seconds) and
    [type] are optional. *)
Record AwsCredentialConfig := {
  prefix : string;
  roleArn : string;
  externalId : option string;
  roleSessionDuration : option Z;
  type : option string;
}.

(** A value of the parsed document that the code only tests, never reads. *)
Inductive JsValue :=
| JsNull
| JsBool (b : bool)
| JsNumber (n : Z)
| JsString (s : string)
| JsObject.

(** The property [prefixes] of a parsed document: absent, a value that is not
    an array, or an array.  The entries of an array are taken at their
    declared type, as [validateConfig] does ("basic" validation). *)
Inductive JsPrefixes :=
| PrefixesAbsent
| PrefixesValue (x : JsValue)
| PrefixesArray (entries : list AwsCredentialConfig).

(** Modelled from the spec: [AwsCredentialProvider] of [types.ts], the parsed
    configuration document, as far as [validateConfig] inspects it.  [CfgNull]
    is JSON [null]; [v] is [None] when the property is absent.  A parsed value
    that is not an object has neither property. *)
Inductive AwsCredentialProvider :=
| CfgNull
| CfgObject (v : option JsValue) (prefixes : JsPrefixes).

Definition Array_isArray (p : JsPrefixes) : bool :=
  match p with
  | PrefixesArray _ => true
  | _ => false
  end.

(** [cfg.v !== 2] *)
Definition v_is_not_2 (v : option JsValue) : bool :=
  match v with
  | Some (JsNumber 2) => false
  | _ => true
  end.

(** Basic JSON validation of the configuration *)
Definition validateConfig (cfg : AwsCredentialProvider) (loc : URL)
  : Completion AwsCredentialProvider :=
  match cfg with
  | CfgNull => Throw (Error ("Unknown configuration from:" +:+ href loc))
  | CfgObject v prefixes =>
      if v_is_not_2 v then
        Throw (Error ("Configuration is not v2 from:" +:+ href loc))
      else if negb (Array_isArray prefixes) then
        Throw (Error ("Configuration prefixes invalid from:" +:+ href loc))
      else Return cfg
  end.

(** ** Collaborators *)

(** Modelled from the spec: [FileSystem] of [@chunkd/fs], the generic file
    reader, is not part of the sources at hand; the loader only calls [read]
    on it.  [files] is how a read of a location ends (the buffer, already
    as text, or an I/O error); [throws] tells, for a read that fails, whether
    [read] throws the error itself, before it has returned a promise, or
    returns a promise that rejects with it; [reads] is the history of the
    reads issued through this handle. *)
Record FileSystem := {
  files : URL -> Completion string;
  throws : URL -> bool;
  reads : list URL;
}.

(** What a call of [read] gives to its caller at once: a promise (identified
    with its settlement), or an exception. *)
Inductive ReadResult :=
| ReadPromise (p : Completion string)
| ReadThrows (e : JsError).

Definition read (fs : FileSystem) (loc : URL) : ReadResult * FileSystem :=
  (match files fs loc with
   | Return text => ReadPromise (Return text)
   | Throw e => if throws fs loc then ReadThrows e else ReadPromise (Throw e)
   end,
   {| files := files fs; throws := throws fs; reads := reads fs ++ [loc] |}).

(** Built-ins the code calls: [JSON.parse], and the two sources of the session
    name, [Date.now()] and [Math.random().toString(32).slice(2)], as functions
    of the number of names generated so far. *)
Record Runtime := {
  JSON_parse : string -> Completion AwsCredentialProvider;
  Date_now : nat -> Z;
  Math_random_32 : nat -> string;
}.

(** ** FsConfigFetcher *)

Record FsConfigFetcher := {
  loc : URL;
  fs : FileSystem;
  _config : option (Completion AwsCredentialProvider);
}.

(** [new FsConfigFetcher(loc, fs)] *)
Definition new_FsConfigFetcher (l : URL) (f : FileSystem) : FsConfigFetcher :=
  {| loc := l; fs := f; _config := None |}.

(** What the getter gives to its caller: the promise, or the exception of
    [this.fs.read(this.loc)], which leaves the getter before [this._config]
    is assigned. *)
Inductive Getter :=
| Promise (p : Completion AwsCredentialProvider)
| Raised (e : JsError).

(** [get config()], statement by statement, and the fetcher after the call. *)
Definition get_config (rt : Runtime) (this : FsConfigFetcher)
  : Getter * FsConfigFetcher :=
  match _config this with
  | Some p => (Promise p, this)
  | None =>
      match read (fs this) (loc this) with
      | (ReadThrows e, fs') =>
          (Raised e, {| loc := loc this; fs := fs'; _config := None |})
      | (ReadPromise f, fs') =>
          let p := then_ (then_ f (JSON_parse rt))
                         (fun cfg => validateConfig cfg (loc this)) in
          (Promise p, {| loc := loc this; fs := fs'; _config := Some p |})
      end
  end.

(** [await g] inside an async function: the settlement of the promise, or the
    exception. *)
Definition awaited (g : Getter) : Completion AwsCredentialProvider :=
  match g with
  | Promise p => p
  | Raised e => Throw e
  end.

(** [await this.config], the one use of the getter: what the caller gets, and
    the fetcher after the call. *)
Definition config (rt : Runtime) (this : FsConfigFetcher)
  : Completion AwsCredentialProvider * FsConfigFetcher :=
  let '(g, this') := get_config rt this in
  (awaited g, this').

(** [for (const credentials of prefixes) if (href.startsWith(credentials.prefix)) return credentials;
    return null] *)
Fixpoint scan_prefixes (href : string) (prefixes : list AwsCredentialConfig)
  : option AwsCredentialConfig :=
  match prefixes with
  | [] => None
  | credentials :: rest =>
      if startsWith href (prefix credentials) then Some credentials
      else scan_prefixes href rest
  end.

(** The part of [FsConfigFetcher.findCredentials] after [await this.config].
    Iterating something that is not an array cannot happen after
    [validateConfig]; the runtime would throw. *)
Definition resume_findCredentials (href : string)
    (settled : Completion AwsCredentialProvider)
  : Completion (option AwsCredentialConfig) :=
  match settled with
  | Throw e => Throw e
  | Return (CfgObject _ (PrefixesArray entries)) => Return (scan_prefixes href entries)
  | Return _ => Throw (TypeError "cfg.prefixes is not iterable")
  end.

(** [FsConfigFetcher.findCredentials], run to completion. *)
Definition FsConfigFetcher_findCredentials (rt : Runtime) (l : URL)
    (this : FsConfigFetcher)
  : Completion (option AwsCredentialConfig) * FsConfigFetcher :=
  let h := href l in
  let '(p, this') := config rt this in
  (resume_findCredentials h p, this').

(** ** AwsS3CredentialProvider *)

(** Modelled from the spec: [FsAwsS3] of [fs.s3.ts] is not part of the sources
    at hand; the provider only constructs it, around an [S3Client] with
    temporary credentials.  The record keeps the parameters given to
    [fromTemporaryCredentials], and [oid], the identity of the object (two
    clients are the same instance when they are equal). *)
Record FsAwsS3 := {
  oid : nat;
  RoleArn : string;
  ExternalId : option string;
  RoleSessionName : string;
  DurationSeconds : option Z;
}.

Inductive Source :=
| Inline (cfg : AwsCredentialConfig)
| Fetcher (f : FsConfigFetcher).

(** The function installed as [onFileSystemCreated], known by a name;
    [raises cs fs] is the exception of the call [cb(cs, fs)], when the call
    throws one. *)
Inductive Callback :=
  Listener (name : string) (raises : AwsCredentialConfig -> FsAwsS3 -> option JsError).

Definition raised (cb : Callback) (cs : AwsCredentialConfig) (c : FsAwsS3)
  : option JsError :=
  match cb with
  | Listener _ raises => raises cs c
  end.

Record AwsS3CredentialProvider := {
  defaultSessionDuration : option Z;
  configs : list Source;
  fileSystems : gmap string FsAwsS3;
  version : string;
  onFileSystemCreated : option Callback;
}.

(** The provider together with the history of its run: every call of
    [createFileSystem] (argument and result) and every call of the
    [onFileSystemCreated] callback. *)
Record World := {
  provider : AwsS3CredentialProvider;
  created : list (AwsCredentialConfig * FsAwsS3);
  notified : list (Callback * AwsCredentialConfig * FsAwsS3);
}.

Definition with_configs (cs : list Source) (p : AwsS3CredentialProvider) :=
  {| defaultSessionDuration := defaultSessionDuration p;
     configs := cs;
     fileSystems := fileSystems p;
     version := version p;
     onFileSystemCreated := onFileSystemCreated p |}.

Definition with_fileSystems (m : gmap string FsAwsS3) (p : AwsS3CredentialProvider) :=
  {| defaultSessionDuration := defaultSessionDuration p;
     configs := configs p;
     fileSystems := m;
     version := version p;
     onFileSystemCreated := onFileSystemCreated p |}.

(** [new AwsS3CredentialProvider()], with the public fields
    [defaultSessionDuration] and [onFileSystemCreated] as the caller sets
    them; [version] is ['v3']. *)
Definition new_AwsS3CredentialProvider (d : option Z) (cb : option Callback) : World :=
  {| provider := {| defaultSessionDuration := d;
                    configs := [];
                    fileSystems := ∅;
                    version := "v3";
                    onFileSystemCreated := cb |};
     created := [];
     notified := [] |}.

(** Create a random new roleSessionName; [n] names were generated before. *)
Definition createRoleSessionName (rt : Runtime) (this : AwsS3CredentialProvider)
    (n : nat) : string :=
  "fsa-" +:+ version this +:+ "-" +:+ pretty (Date_now rt n) +:+ "-" +:+ Math_random_32 rt n.

(** [a ?? b] *)
Definition nullish {A} (a b : option A) : option A :=
  match a with
  | Some x => Some x
  | None => b
  end.

(** Given a config create a file system *)
Definition createFileSystem (rt : Runtime) (cs : AwsCredentialConfig) (w : World)
  : FsAwsS3 * World :=
  let n := length (created w) in
  let client :=
    {| oid := n;
       RoleArn := roleArn cs;
       ExternalId := externalId cs;
       RoleSessionName := createRoleSessionName rt (provider w) n;
       DurationSeconds :=
         nullish (roleSessionDuration cs) (defaultSessionDuration (provider w)) |} in
  (client, {| provider := provider w;
              created := created w ++ [(cs, client)];
              notified := notified w |}).

(** Register a credential configuration to be used:
    [this.configs.push({ ...f, type: 's3' })] *)
Definition register (f : AwsCredentialConfig) (w : World) : World :=
  let cfg := {| prefix := prefix f; roleArn := roleArn f;
                externalId := externalId f;
                roleSessionDuration := roleSessionDuration f;
                type := Some "s3" |} in
  {| provider := with_configs (configs (provider w) ++ [Inline cfg]) (provider w);
     created := created w;
     notified := notified w |}.

(** Load a credential configuration file from disk:
    [this.configs.push(new FsConfigFetcher(loc, fs))] *)
Definition registerConfig (l : URL) (f : FileSystem) (w : World) : World :=
  {| provider :=
       with_configs (configs (provider w) ++ [Fetcher (new_FsConfigFetcher l f)])
                    (provider w);
     created := created w;
     notified := notified w |}.

(** The loop of [AwsS3CredentialProvider.findCredentials] over [this.configs]:
    the outcome, and the sources after the call. *)
Fixpoint findCredentials_loop (rt : Runtime) (l : URL) (cfgs : list Source)
  : Completion (option AwsCredentialConfig) * list Source :=
  match cfgs with
  | [] => (Return None, [])
  | Fetcher f :: rest =>
      match FsConfigFetcher_findCredentials rt l f with
      | (Throw e, f') => (Throw e, Fetcher f' :: rest)
      | (Return (Some credentials), f') => (Return (Some credentials), Fetcher f' :: rest)
      | (Return None, f') =>
          let '(r, rest') := findCredentials_loop rt l rest in
          (r, Fetcher f' :: rest')
      end
  | Inline cfg :: rest =>
      if startsWith (href l) (prefix cfg) then (Return (Some cfg), Inline cfg :: rest)
      else
        let '(r, rest') := findCredentials_loop rt l rest in
        (r, Inline cfg :: rest')
  end.

(** Look up the credentials for a path *)
Definition findCredentials (rt : Runtime) (l : URL) (w : World)
  : Completion (option AwsCredentialConfig) * World :=
  let '(r, cfgs') := findCredentials_loop rt l (configs (provider w)) in
  (r, {| provider := with_configs cfgs' (provider w);
         created := created w;
         notified := notified w |}).

(** [`${cs.roleArn}__${cs.externalId}__${cs.roleSessionDuration}`] *)
Definition cacheKey (cs : AwsCredentialConfig) : string :=
  roleArn cs +:+ "__" +:+ str_of_optional_string (externalId cs)
  +:+ "__" +:+ str_of_optional_number (roleSessionDuration cs).

(** [this.onFileSystemCreated?.(cs, existing)]: the exception of the call,
    when it throws one, and the world after the call. *)
Definition notify (cs : AwsCredentialConfig) (c : FsAwsS3) (w : World)
  : option JsError * World :=
  match onFileSystemCreated (provider w) with
  | Some cb => (raised cb cs c,
                {| provider := provider w;
                   created := created w;
                   notified := notified w ++ [(cb, cs, c)] |})
  | None => (None, w)
  end.

Definition find (rt : Runtime) (path : URL) (w : World)
  : Completion (option FsAwsS3) * World :=
  match findCredentials rt path w with
  | (Throw e, w1) => (Throw e, w1)
  | (Return None, w1) => (Return None, w1)
  | (Return (Some cs), w1) =>
      let key := cacheKey cs in
      match fileSystems (provider w1) !! key with
      | Some existing => (Return (Some existing), w1)
      | None =>
          let '(existing, w2) := createFileSystem rt cs w1 in
          let w3 := {| provider := with_fileSystems
                                     (<[key := existing]> (fileSystems (provider w2)))
                                     (provider w2);
                       created := created w2;
                       notified := notified w2 |} in
          match notify cs existing w3 with
          | (Some e, w4) => (Throw e, w4)
          | (None, w4) => (Return (Some existing), w4)
          end
      end
  end.

(** ** s3.v3.ts *)

Module S3LikeV3.
(** One megabyte in bytes *)
Definition OneMegaByte : Z := 1024 * 1204.
(** Concurrency for uploads *)
Definition uploadQueueSize : Z := 4.
(** Number of bytes to split uploads on *)
Definition uploadPartSize : Z := 10 * OneMegaByte.
End S3LikeV3.

(** ** Interleaved callers of one loader

    JavaScript runs one callback at a time.  A call of the async
    [findCredentials] runs at once up to [await this.config] (this is where
    the getter runs), and is resumed some time after the promise has settled;
    when the getter throws, the call has failed with that error and waits for
    nothing.
    The events of a loader are therefore: a caller invokes [findCredentials];
    the read in flight completes and the promise settles; a suspended caller
    is resumed. *)
Module Interleaved.

Inductive Call :=
| Awaiting (href : string) (p : Completion AwsCredentialProvider)
| Returned (r : Completion (option AwsCredentialConfig)).

Record Loader := {
  this : FsConfigFetcher;
  settled : bool;
  calls : list Call;
}.

Inductive Event :=
| Invoke (l : URL)
| Settle
| Resume (i : nat).

Definition start (f : FsConfigFetcher) : Loader :=
  {| this := f; settled := false; calls := [] |}.

(** One event; [None] when the event cannot happen in this state. *)
Definition step (rt : Runtime) (ev : Event) (w : Loader) : option Loader :=
  match ev with
  | Invoke l =>
      let h := href l in
      match get_config rt (this w) with
      | (Promise p, this') =>
          Some {| this := this'; settled := settled w;
                  calls := calls w ++ [Awaiting h p] |}
      | (Raised e, this') =>
          Some {| this := this'; settled := settled w;
                  calls := calls w ++ [Returned (Throw e)] |}
      end
  | Settle =>
      match _config (this w), settled w with
      | Some _, false => Some {| this := this w; settled := true; calls := calls w |}
      | _, _ => None
      end
  | Resume i =>
      match settled w, calls w !! i with
      | true, Some (Awaiting h p) =>
          Some {| this := this w; settled := true;
                  calls := <[i := Returned (resume_findCredentials h p)]> (calls w) |}
      | _, _ => None
      end
  end.

Fixpoint run (rt : Runtime) (evs : list Event) (w : Loader) : option Loader :=
  match evs with
  | [] => Some w
  | ev :: rest =>
      match step rt ev w with
      | Some w' => run rt rest w'
      | None => None
      end
  end.

Definition is_Invoke (ev : Event) : bool :=
  match ev with
  | Invoke _ => true
  | _ => false
  end.

(** The URLs of the calls made in a schedule, in order. *)
Fixpoint invoked (evs : list Event) : list URL :=
  match evs with
  | [] => []
  | Invoke l :: rest => l :: invoked rest
  | _ :: rest => invoked rest
  end.

(** The call made for [u] has seen the settlement [doc]: it waits on it, or
    has returned what the scan of it gives for the href of [u]. *)
Definition observes (doc : Completion AwsCredentialProvider) (u : URL) (c : Call)
  : Prop :=
  c = Awaiting (href u) doc \/ c = Returned (resume_findCredentials (href u) doc).

End Interleaved.

(** ** Programs over a provider *)

Inductive Op :=
| OpRegister (f : AwsCredentialConfig)
| OpRegisterConfig (l : URL) (f : FileSystem)
| OpFind (path : URL).

Definition exec (rt : Runtime) (op : Op) (w : World) : World :=
  match op with
  | OpRegister f => register f w
  | OpRegisterConfig l f => registerConfig l f w
  | OpFind path => snd (find rt path w)
  end.

Definition exec_all (rt : Runtime) (ops : list Op) (w : World) : World :=
  fold_left (fun w op => exec rt op w) ops w.

(** ** Predicates used in the statements *)

(** [p] is a textual prefix of [s]. *)
Definition is_textual_prefix (p s : string) : Prop := exists rest, s = p +:+ rest.

(** [c] is the first descriptor of [es] whose prefix is a textual prefix of [h]. *)
Definition first_textual_match (h : string) (es : list AwsCredentialConfig)
    (c : AwsCredentialConfig) : Prop :=
  exists before after,
    es = before ++ c :: after
    /\ is_textual_prefix (prefix c) h
    /\ Forall (fun b => ~ is_textual_prefix (prefix b) h) before.

(** The read of [l] on [disk] returns a promise: it does not throw before. *)
Definition returns_promise (disk : FileSystem) (l : URL) : Prop :=
  exists p, fst (read disk l) = ReadPromise p.

(** What a caller that awaits the getter of a loader gets when the read is
    issued now: the settlement of read, parse and validation. *)
Definition fetched (rt : Runtime) (l : URL) (f : FileSystem)
  : Completion AwsCredentialProvider :=
  then_ (then_ (files f l) (JSON_parse rt)) (fun cfg => validateConfig cfg l).

(** What holds of a loader created as [new FsConfigFetcher(l, disk)], whose
    read returns a promise, at every point of every schedule, [us] being the
    URLs of the calls made so far: every call has seen the one settlement,
    and the read was issued exactly when the first call came. *)
Definition one_read_inv (rt : Runtime) (l : URL) (disk : FileSystem)
    (us : list URL) (w : Interleaved.Loader) : Prop :=
  loc (Interleaved.this w) = l
  /\ files (fs (Interleaved.this w)) = files disk
  /\ throws (fs (Interleaved.this w)) = throws disk
  /\ Forall2 (Interleaved.observes (fetched rt l disk)) us (Interleaved.calls w)
  /\ ((Interleaved.calls w = [] /\ _config (Interleaved.this w) = None
       /\ reads (fs (Interleaved.this w)) = reads disk)
      \/ (Interleaved.calls w <> []
          /\ _config (Interleaved.this w) = Some (fetched rt l disk)
          /\ reads (fs (Interleaved.this w)) = reads disk ++ [l])).

(** The world after a lookup that left the sources as [cfgs]. *)
Definition after_lookup (cfgs : list Source) (w : World) : World :=
  {| provider := with_configs cfgs (provider w);
     created := created w;
     notified := notified w |}.

(** A source that answers "none" for [u]: an inline descriptor whose prefix
    is not a textual prefix of the href, or a loader whose document (kept, or
    fetched now) is valid and has no entry whose prefix is one. *)
Definition source_has_no_match (rt : Runtime) (u : URL) (s : Source) : Prop :=
  match s with
  | Inline c => ~ is_textual_prefix (prefix c) (href u)
  | Fetcher f =>
      exists v es,
        fst (config rt f) = Return (CfgObject v (PrefixesArray es))
        /\ Forall (fun b => ~ is_textual_prefix (prefix b) (href u)) es
  end.

(** The world [find] leaves after building [c] for [cs] on a miss. *)
Definition after_miss (cs : AwsCredentialConfig) (c : FsAwsS3) (w1 : World) : World :=
  snd (notify cs c
         {| provider := with_fileSystems (<[cacheKey cs := c]> (fileSystems (provider w1)))
                                         (provider w1);
            created := created w1 ++ [(cs, c)];
            notified := notified w1 |}).

(** What [find] gives on a miss after it has built and cached [c] for [cs]:
    the exception of the callback, when there is a callback and it throws,
    and the client otherwise. *)
Definition miss_outcome (cb : option Callback) (cs : AwsCredentialConfig) (c : FsAwsS3)
  : Completion (option FsAwsS3) :=
  match cb with
  | Some f =>
      match raised f cs c with
      | Some e => Throw e
      | None => Return (Some c)
      end
  | None => Return (Some c)
  end.

(** Every client built so far sits in the cache under the key of the
    descriptor it was built for, and no key was built for twice. *)
Definition cache_inv (w : World) : Prop :=
  NoDup (map (fun x => cacheKey (fst x)) (created w))
  /\ forall cs c, (cs, c) ∈ created w ->
                  fileSystems (provider w) !! cacheKey cs = Some c.

(** The string has no [_] in it. *)
Fixpoint no_underscore (s : string) : bool :=
  match s with
  | EmptyString => true
  | String c s' => negb (Ascii.eqb c "_") && no_underscore s'
  end.

(** An [externalId] that cannot be confused in a key: absent, or a string
    without [_] other than the word [undefined]. *)
Definition plain_externalId (e : option string) : Prop :=
  match e with
  | None => True
  | Some s => no_underscore s = true /\ s <> "undefined"
  end.

(** ** Example data *)

Module Demo.
Definition role_B : AwsCredentialConfig :=
  {| prefix := "s3://bucket-b/"; roleArn := "role-B"; externalId := None;
     roleSessionDuration := None; type := None |}.

(** The bodies of two documents (written without the quotes of JSON). *)
Definition good_text : string :=
  "{v:2,prefixes:[{prefix:s3://bucket-b/,roleArn:role-B}]}".
Definition old_text : string := "{v:1,prefixes:[]}".

(** A stand-in for [JSON.parse] that knows these two documents. *)
Definition parse (s : string) : Completion AwsCredentialProvider :=
  if String.eqb s good_text then
    Return (CfgObject (Some (JsNumber 2)) (PrefixesArray [role_B]))
  else if String.eqb s old_text then
    Return (CfgObject (Some (JsNumber 1)) (PrefixesArray []))
  else Throw (SyntaxError "Unexpected token").

Definition rt : Runtime :=
  {| JSON_parse := parse;
     Date_now := fun n => 1700000000000 + Z.of_nat n;
     Math_random_32 := fun n => "r" +:+ pretty n |}.

Definition cfg_loc : URL := {| href := "s3://cfg/creds.json" |}.
Definition old_loc : URL := {| href := "s3://cfg/old.json" |}.

Definition disk : FileSystem :=
  {| files := fun l =>
       if String.eqb (href l) (href cfg_loc) then Return good_text
       else if String.eqb (href l) (href old_loc) then Return old_text
       else Throw (IoError "NoSuchKey");
     throws := fun _ => false;
     reads := [] |}.

(** A file system whose [read] throws instead of returning a promise. *)
Definition broken_disk : FileSystem :=
  {| files := fun _ => Throw (IoError "EACCES");
     throws := fun _ => true;
     reads := [] |}.

(** A callback that throws at every call. *)
Definition angry : Callback :=
  Listener "angry" (fun _ _ => Some (Error "observer failed")).

Definition role_A : AwsCredentialConfig :=
  {| prefix := "s3://bucket-a/"; roleArn := "role-A"; externalId := None;
     roleSessionDuration := None; type := None |}.
Definition role_A_s3 : AwsCredentialConfig :=
  {| prefix := "s3://bucket-a/"; roleArn := "role-A"; externalId := None;
     roleSessionDuration := None; type := Some "s3" |}.
Definition role_A_wide : AwsCredentialConfig :=
  {| prefix := "s3://bucket"; roleArn := "role-A"; externalId := None;
     roleSessionDuration := None; type := None |}.

Definition key_txt : URL := {| href := "s3://bucket-a/key.txt" |}.
Definition b_x : URL := {| href := "s3://bucket-b/x" |}.
Definition other_x : URL := {| href := "s3://other/x" |}.

(** An inline descriptor, then a good document, then an outdated one. *)
Definition three_sources : World :=
  registerConfig old_loc disk
    (registerConfig cfg_loc disk
       (register role_A (new_AwsS3CredentialProvider None None))).
(** An outdated document registered before a descriptor that would match. *)
Definition failing_first : World :=
  register role_B
    (registerConfig old_loc disk
       (register role_A (new_AwsS3CredentialProvider None None))).
Definition two_sources : World :=
  registerConfig cfg_loc disk
    (register role_A (new_AwsS3CredentialProvider None None)).
End Demo.

Module Demo_schedule.
Import Interleaved.
(** Two callers arrive before the read completes, a third after it. *)
Definition schedule : list Event :=
  [Invoke Demo.b_x; Invoke Demo.other_x; Settle; Resume 1%nat;
   Invoke Demo.key_txt; Resume 0%nat; Resume 2%nat].
Definition failing : list Event :=
  [Invoke Demo.b_x; Settle; Invoke Demo.other_x; Resume 0%nat; Resume 1%nat].
(** Two callers, one after the other. *)
Definition twice : list Event := [Invoke Demo.b_x; Invoke Demo.other_x].
End Demo_schedule.

Module Demo_roles.
(** Two tenants with different roles and different external ids. *)
Definition reader : AwsCredentialConfig :=
  {| prefix := "s3://tenant-a/"; roleArn := "arn:aws:iam::1:role/read";
     externalId := Some "ext__7"; roleSessionDuration := None; type := None |}.
Definition reader_ext : AwsCredentialConfig :=
  {| prefix := "s3://tenant-b/"; roleArn := "arn:aws:iam::1:role/read__ext";
     externalId := Some "7"; roleSessionDuration := None; type := None |}.
Definition tenant_a : URL := {| href := "s3://tenant-a/data.bin" |}.
Definition tenant_b : URL := {| href := "s3://tenant-b/data.bin" |}.
Definition tenants : World :=
  register reader_ext (register reader (new_AwsS3CredentialProvider None None)).

(** The same role under two prefixes. *)
Definition role_A_other : AwsCredentialConfig :=
  {| prefix := "s3://bucket-c/"; roleArn := "role-A"; externalId := None;
     roleSessionDuration := None; type := None |}.
Definition c_x : URL := {| href := "s3://bucket-c/x" |}.
Definition two_prefixes : World :=
  register role_A_other
    (register Demo.role_A (new_AwsS3CredentialProvider None None)).
End Demo_roles.

(** ** s3.v3.ts: reading the body of an object *)

Module Readable.

(** What a [Readable] emits, as the handlers that [streamToBuffer] installs
    with [stream.on] see it. *)
Inductive StreamEvent :=
| OnData (chunk : list Byte.byte)
| OnError (e : JsError)
| OnEnd.

(** The executor of [new Promise((resolve, reject) => ...)]: the array
    [chunks], and the settlement of the promise once there is one. *)
Record Collector := {
  chunks : list (list Byte.byte);
  settlement : option (Completion (list Byte.byte));
}.

(** [resolve(x)] and [reject(e)]: a promise keeps its first settlement. *)
Definition settle (o : Completion (list Byte.byte)) (st : Collector) : Collector :=
  match settlement st with
  | Some _ => st
  | None => {| chunks := chunks st; settlement := Some o |}
  end.

(** The three handlers: [chunks.push(chunk)], [reject], and
    [resolve(Buffer.concat(chunks))]. *)
Definition on_event (st : Collector) (ev : StreamEvent) : Collector :=
  match ev with
  | OnData chunk => {| chunks := chunks st ++ [chunk]; settlement := settlement st |}
  | OnError e => settle (Throw e) st
  | OnEnd => settle (Return (concat (chunks st))) st
  end.

(** [streamToBuffer(stream)] once the stream has emitted [events]: [None] is a
    promise still pending; the buffer is [None] for [undefined]. *)
Definition streamToBuffer (stream : option (list StreamEvent))
  : option (Completion (option (list Byte.byte))) :=
  match stream with
  | None => Some (Return None)
  | Some events =>
      match settlement (fold_left on_event events {| chunks := []; settlement := None |}) with
      | None => None
      | Some (Return b) => Some (Return (Some b))
      | Some (Throw e) => Some (Throw e)
      end
  end.

(** The response of a [GetObjectCommand], as far as the adapter declares it;
    [B] is what the body is: a stream from the SDK, a buffer for the caller. *)
Record GetObjectOutput (B : Type) := {
  Body : option B;
  ContentRange : option string;
}.
Arguments Body {B} _.
Arguments ContentRange {B} _.

(** [getObject(req).promise()], given what [client.send(cmd)] settles to:
    [{ ...res, Body: await streamToBuffer(res.Body) }]. *)
Definition getObject_promise (send : Completion (GetObjectOutput (list StreamEvent)))
  : option (Completion (GetObjectOutput (list Byte.byte))) :=
  match send with
  | Throw e => Some (Throw e)
  | Return res =>
      match streamToBuffer (Body res) with
      | None => None
      | Some (Throw e) => Some (Throw e)
      | Some (Return b) => Some (Return {| Body := b; ContentRange := ContentRange res |})
      end
  end.

End Readable.

(** ** Predicates on providers *)

(** What a lookup cannot change of a source: an inline descriptor, or the
    location and the files of a loader. *)
Definition source_shape (s : Source)
  : AwsCredentialConfig + (URL * (URL -> Completion string)) :=
  match s with
  | Inline c => inl c
  | Fetcher f => inr (loc f, files (fs f))
  end.

(** The slot of a loader is unset or holds what read, parse and validation of
    its own location give. *)
Definition slot_is_fetched (rt : Runtime) (s : Source) : Prop :=
  match s with
  | Inline _ => True
  | Fetcher f => _config f = None \/ _config f = Some (fetched rt (loc f) (fs f))
  end.

(** A loader that was handed a file system without history has read nothing
    while its slot is unset, and its own location once, since. *)
Definition read_at_most_once (s : Source) : Prop :=
  match s with
  | Inline _ => True
  | Fetcher f =>
      match _config f with
      | None => reads (fs f) = []
      | Some _ => reads (fs f) = [loc f]
      end
  end.

(** The file system handed to [registerConfig] has no reads in its history,
    and its read of the location returns a promise. *)
Definition fresh_handle (op : Op) : Prop :=
  match op with
  | OpRegisterConfig l disk => reads disk = [] /\ returns_promise disk l
  | _ => True
  end.

(** A source whose lookups repeat: an inline descriptor, or a loader that
    has its slot set or whose read returns a promise (and so will set it). *)
Definition source_promises (s : Source) : Prop :=
  match s with
  | Inline _ => True
  | Fetcher f => is_Some (_config f) \/ returns_promise (fs f) (loc f)
  end.

(** [c] is on offer in [cfgs]: registered inline, or an entry of a document
    that a loader keeps. *)
Definition offered (cfgs : list Source) (c : AwsCredentialConfig) : Prop :=
  Inline c ∈ cfgs
  \/ exists f v es,
       Fetcher f ∈ cfgs
       /\ _config f = Some (Return (CfgObject v (PrefixesArray es)))
       /\ c ∈ es.

(** The client [c] is what [createFileSystem] makes of [cs] in a provider
    whose default session duration is [d]. *)
Definition built_from (d : option Z) (cs : AwsCredentialConfig) (c : FsAwsS3) : Prop :=
  RoleArn c = roleArn cs
  /\ ExternalId c = externalId cs
  /\ DurationSeconds c = nullish (roleSessionDuration cs) d.

(** The history of constructions is consistent: the [i]-th client has
    identity [i] and was made of the descriptor logged with it; the cache
    holds the logged clients under their keys and nothing else. *)
Definition history_inv (d : option Z) (w : World) : Prop :=
  defaultSessionDuration (provider w) = d
  /\ (forall i cs c, created w !! i = Some (cs, c) -> oid c = i /\ built_from d cs c)
  /\ (forall k c, fileSystems (provider w) !! k = Some c ->
        exists cs, (cs, c) ∈ created w /\ cacheKey cs = k)
  /\ cache_inv w.

(** Every call of the callback is for a construction, in order. *)
Definition notified_inv (cb : option Callback) (w : World) : Prop :=
  onFileSystemCreated (provider w) = cb
  /\ notified w = match cb with
                  | Some f => map (fun x => (f, fst x, snd x)) (created w)
                  | None => []
                  end.

(** The string has no [-] in it. *)
Fixpoint no_dash (s : string) : bool :=
  match s with
  | EmptyString => true
  | String c s' => negb (Ascii.eqb c "-") && no_dash s'
  end.

Module Demo_extra.
(** A body of five bytes delivered in two chunks. *)
Definition hello : list Readable.StreamEvent :=
  [Readable.OnData [Byte.x68; Byte.x65]; Readable.OnData [Byte.x6c; Byte.x6c; Byte.x6f];
   Readable.OnEnd].
Definition catch_all : AwsCredentialConfig :=
  {| prefix := ""; roleArn := "role-default"; externalId := None;
     roleSessionDuration := Some 900; type := None |}.
End Demo_extra.

(** * Properties *)

(** ** Strings *)

Lemma startsWith_true (s p : string) :
  startsWith s p = true <-> exists rest, s = p +:+ rest.
Proof.
  revert s. induction p as [|c p IH]; intros s; simpl.
  - split; [intros _; by exists s | intros _; reflexivity].
  - destruct s as [|d s].
    + split; [intros Hf; discriminate Hf | intros [rest Hr]; discriminate Hr].
    + destruct (Ascii.eqb_spec d c) as [->|Hne].
      * rewrite IH. split; intros [rest Hr]; exists rest.
        -- by rewrite Hr.
        -- by injection Hr.
      * split; [intros Hf; discriminate Hf
               | intros [rest Hr]; injection Hr as Hc _; by destruct Hne].
Qed.

Lemma startsWith_false (s p : string) :
  startsWith s p = false <-> ~ exists rest, s = p +:+ rest.
Proof.
  rewrite <- startsWith_true. destruct (startsWith s p); split; try done.
Qed.

Lemma scan_prefixes_Some (h : string) (es : list AwsCredentialConfig) c :
  scan_prefixes h es = Some c <->
  exists before after,
    es = before ++ c :: after
    /\ startsWith h (prefix c) = true
    /\ Forall (fun b => startsWith h (prefix b) = false) before.
Proof.
  induction es as [|e es IH]; simpl.
  - split; [done | intros (b & a & Heq & _)]. by destruct b.
  - destruct (startsWith h (prefix e)) eqn:He.
    + split.
      * intros [= ->]. exists [], es. by repeat split.
      * intros ([|b before] & after & Heq & Hc & Hb); simplify_eq/=; [done|].
        apply Forall_cons in Hb as [Hb _]. congruence.
    + rewrite IH. split.
      * intros (before & after & -> & Hc & Hb).
        exists (e :: before), after. repeat split; [done | by constructor].
      * intros ([|b before] & after & Heq & Hc & Hb); simplify_eq/=; [congruence|].
        apply Forall_cons in Hb as [_ Hb]. by exists before, after.
Qed.

Lemma scan_prefixes_None (h : string) (es : list AwsCredentialConfig) :
  scan_prefixes h es = None <-> Forall (fun b => startsWith h (prefix b) = false) es.
Proof.
  induction es as [|e es IH]; simpl.
  - split; [by constructor | done].
  - destruct (startsWith h (prefix e)) eqn:He.
    + split; [done | intros Hf; apply Forall_cons in Hf as [Hf _]; congruence].
    + rewrite IH. split; [by constructor | by intros [_ ?]%Forall_cons].
Qed.

Lemma scan_prefixes_first_match (h : string) (es : list AwsCredentialConfig) c :
  scan_prefixes h es = Some c <-> first_textual_match h es c.
Proof.
  rewrite scan_prefixes_Some. unfold first_textual_match, is_textual_prefix.
  split; intros (before & after & Heq & Hc & Hb); exists before, after;
    (split; [exact Heq|]); split.
  - by apply startsWith_true.
  - eapply Forall_impl; [exact Hb|]. intros b Hf. by apply startsWith_false.
  - by apply startsWith_true.
  - eapply Forall_impl; [exact Hb|]. intros b Hf. by apply startsWith_false.
Qed.

(** ** The loader *)

Lemma returns_promise_Return (disk : FileSystem) (l : URL) text :
  files disk l = Return text -> returns_promise disk l.
Proof. intros H. unfold returns_promise, read. simpl. rewrite H. by eexists. Qed.

(** A read returns a promise or throws the error it fails with. *)
Lemma read_cases (disk : FileSystem) (l : URL) :
  (returns_promise disk l /\ fst (read disk l) = ReadPromise (files disk l))
  \/ (exists e, fst (read disk l) = ReadThrows e /\ files disk l = Throw e).
Proof.
  unfold returns_promise, read. simpl.
  destruct (files disk l) as [text|e]; [left; split; [by eexists | done]|].
  destruct (throws disk l); [right; by exists e | left; split; [by eexists | done]].
Qed.

Lemma returns_promise_read (disk : FileSystem) (l : URL) :
  returns_promise disk l -> fst (read disk l) = ReadPromise (files disk l).
Proof.
  intros [p Hp]. destruct (read_cases disk l) as [[_ H]|(e & H & _)]; [done | congruence].
Qed.

Lemma get_config_unset rt (this : FsConfigFetcher) :
  _config this = None -> returns_promise (fs this) (loc this) ->
  get_config rt this =
    (Promise (fetched rt (loc this) (fs this)),
     {| loc := loc this;
        fs := {| files := files (fs this); throws := throws (fs this);
                 reads := reads (fs this) ++ [loc this] |};
        _config := Some (fetched rt (loc this) (fs this)) |}).
Proof.
  intros H Hp%returns_promise_read. unfold get_config. rewrite H.
  destruct (read (fs this) (loc this)) as [r fs'] eqn:Hr. simpl in Hp. subst r.
  unfold read in Hr. by injection Hr as _ <-.
Qed.

Lemma get_config_throws rt (this : FsConfigFetcher) e :
  _config this = None -> fst (read (fs this) (loc this)) = ReadThrows e ->
  get_config rt this =
    (Raised e,
     {| loc := loc this;
        fs := {| files := files (fs this); throws := throws (fs this);
                 reads := reads (fs this) ++ [loc this] |};
        _config := None |}).
Proof.
  intros H Hp. unfold get_config. rewrite H.
  destruct (read (fs this) (loc this)) as [r fs'] eqn:Hr. simpl in Hp. subst r.
  unfold read in Hr. by injection Hr as _ <-.
Qed.

Lemma get_config_memoized rt (this : FsConfigFetcher) p :
  _config this = Some p -> get_config rt this = (Promise p, this).
Proof. intros H. unfold get_config. by rewrite H. Qed.

Lemma config_unset rt (this : FsConfigFetcher) :
  _config this = None -> returns_promise (fs this) (loc this) ->
  config rt this =
    (fetched rt (loc this) (fs this),
     {| loc := loc this;
        fs := {| files := files (fs this); throws := throws (fs this);
                 reads := reads (fs this) ++ [loc this] |};
        _config := Some (fetched rt (loc this) (fs this)) |}).
Proof. intros H Hp. unfold config. by rewrite get_config_unset. Qed.

(** A read that throws leaves the slot unset; the caller gets the error. *)
Lemma config_throws rt (this : FsConfigFetcher) e :
  _config this = None -> fst (read (fs this) (loc this)) = ReadThrows e ->
  config rt this =
    (Throw e,
     {| loc := loc this;
        fs := {| files := files (fs this); throws := throws (fs this);
                 reads := reads (fs this) ++ [loc this] |};
        _config := None |})
  /\ fetched rt (loc this) (fs this) = Throw e.
Proof.
  intros H Hp. unfold config. rewrite (get_config_throws _ _ e) by done.
  split; [done|]. unfold fetched.
  destruct (read_cases (fs this) (loc this)) as [[_ Hr]|(e' & Hr & Hf)]; [congruence|].
  rewrite Hf. simpl. congruence.
Qed.

Lemma config_memoized rt (this : FsConfigFetcher) p :
  _config this = Some p -> config rt this = (p, this).
Proof. intros H. unfold config. by rewrite (get_config_memoized _ _ _ H). Qed.

(** Whether the read throws or returns a promise, the caller of an unset
    loader gets the outcome of read, parse and validation. *)
Lemma config_unset_fst rt (this : FsConfigFetcher) :
  _config this = None -> fst (config rt this) = fetched rt (loc this) (fs this).
Proof.
  intros H. destruct (read_cases (fs this) (loc this)) as [[Hp _]|(e & Hr & _)].
  - by rewrite config_unset.
  - destruct (config_throws rt this e H Hr) as [-> ->]. done.
Qed.

Lemma validateConfig_Return cfg l cfg' :
  validateConfig cfg l = Return cfg' ->
  exists es, cfg = CfgObject (Some (JsNumber 2)) (PrefixesArray es) /\ cfg' = cfg.
Proof.
  destruct cfg as [|v p]; simpl; [done|].
  destruct v as [[| |n| |]|]; simpl; try done.
  destruct n as [|[[]|[]|]|]; simpl; try done.
  destruct p; simpl; try done. intros [= <-]. by eexists.
Qed.

(** Iterating what [validateConfig] let through never meets a non-array. *)
Lemma fetched_Return rt l f cfg :
  fetched rt l f = Return cfg ->
  exists es, cfg = CfgObject (Some (JsNumber 2)) (PrefixesArray es).
Proof.
  unfold fetched, then_. destruct (files f l); [|done].
  destruct (JSON_parse rt a); [|done].
  intros (es & -> & ->)%validateConfig_Return. by exists es.
Qed.

Lemma findCredentials_loop_inline rt u (es : list AwsCredentialConfig) :
  findCredentials_loop rt u (map Inline es)
  = (Return (scan_prefixes (href u) es), map Inline es).
Proof.
  induction es as [|e es IH]; simpl; [done|].
  destruct (startsWith (href u) (prefix e)); [done|]. by rewrite IH.
Qed.

(** C1. A URL matches a descriptor exactly when the descriptor's prefix is a
    textual prefix of the URL's full string form, for registered inline
    descriptors and for the entries of a fetched document alike: both lookups
    return [c] exactly when [c] is the first descriptor whose prefix the href
    starts with. *)
Theorem prefix_match_is_textual_startsWith
    (rt : Runtime) (u : URL) (es : list AwsCredentialConfig) (c : AwsCredentialConfig)
    (l : URL) (disk : FileSystem) (text : string)
    (Hread : files disk l = Return text)
    (Hparse : JSON_parse rt text = Return (CfgObject (Some (JsNumber 2)) (PrefixesArray es))) :
  (fst (findCredentials_loop rt u [Inline c]) = Return (Some c)
     <-> is_textual_prefix (prefix c) (href u))
  /\ (fst (findCredentials_loop rt u (map Inline es)) = Return (Some c)
     <-> first_textual_match (href u) es c)
  /\ (fst (FsConfigFetcher_findCredentials rt u (new_FsConfigFetcher l disk)) = Return (Some c)
     <-> first_textual_match (href u) es c).
Proof.
  split; [|split].
  - simpl. destruct (startsWith (href u) (prefix c)) eqn:Hs; simpl.
    + split; [intros _; by apply startsWith_true | done].
    + split; [done | intros Hp%startsWith_true; congruence].
  - rewrite findCredentials_loop_inline. simpl.
    rewrite <- scan_prefixes_first_match. split; [by intros [= ->] | by intros ->].
  - unfold FsConfigFetcher_findCredentials.
    rewrite config_unset by (done || by eapply returns_promise_Return).
    unfold fetched. simpl. rewrite Hread. simpl. rewrite Hparse. simpl.
    rewrite <- scan_prefixes_first_match. split; [by intros [= ->] | by intros ->].
Qed.

Lemma prefix_match_is_textual_startsWith_witness :
  fst (findCredentials_loop Demo.rt Demo.b_x [Inline Demo.role_B]) = Return (Some Demo.role_B)
  <-> is_textual_prefix (prefix Demo.role_B) (href Demo.b_x).
Proof.
  exact (proj1 (prefix_match_is_textual_startsWith Demo.rt Demo.b_x [Demo.role_B]
                  Demo.role_B Demo.cfg_loc Demo.disk Demo.good_text
                  eq_refl eq_refl)).
Defined.

(** The test is on text, not on path segments: the prefix [s3://bucket] also
    selects keys of the bucket [bucket-a]. *)
Example prefix_match_ignores_path_segments :
  fst (findCredentials_loop Demo.rt Demo.key_txt [Inline Demo.role_A_wide])
  = Return (Some Demo.role_A_wide).
Proof. reflexivity. Qed.

(** ** Validation *)

(** C7, as the claim states it, fails: a document without [prefixes] and a
    document whose [prefixes] is a scalar are rejected with one and the same
    error, so the two rejections are not told apart. *)
Lemma validateConfig_prefixes_rejections_coincide :
  exists e,
    validateConfig (CfgObject (Some (JsNumber 2)) PrefixesAbsent) Demo.cfg_loc = Throw e
    /\ validateConfig (CfgObject (Some (JsNumber 2)) (PrefixesValue (JsString "s3://bucket-b/")))
         Demo.cfg_loc = Throw e.
Proof. eexists. split; reflexivity. Qed.

(** C7 (amended). A document whose version is not 2 is rejected with the
    message [Configuration is not v2 from:<location>]; a document with version
    2 whose [prefixes] is missing or not an array is rejected with the single
    message [Configuration prefixes invalid from:<location>], which differs
    from the version message; a version 2 document with an array passes.  The
    loader validates right after the fetch: a rejected document fails every
    lookup with that error, whatever the URL, and the failure is kept, so no
    later lookup reads or validates again. *)
Theorem validateConfig_rejects_with_location
    (rt : Runtime) (l : URL) (disk : FileSystem) (text : string)
    (cfg : AwsCredentialProvider) (e : JsError)
    (Hread : files disk l = Return text)
    (Hparse : JSON_parse rt text = Return cfg)
    (Hinvalid : validateConfig cfg l = Throw e) :
  (forall v p, v <> Some (JsNumber 2) ->
     validateConfig (CfgObject v p) l
     = Throw (Error ("Configuration is not v2 from:" +:+ href l)))
  /\ validateConfig (CfgObject (Some (JsNumber 2)) PrefixesAbsent) l
     = Throw (Error ("Configuration prefixes invalid from:" +:+ href l))
  /\ (forall x, validateConfig (CfgObject (Some (JsNumber 2)) (PrefixesValue x)) l
     = Throw (Error ("Configuration prefixes invalid from:" +:+ href l)))
  /\ "Configuration is not v2 from:" +:+ href l
     <> "Configuration prefixes invalid from:" +:+ href l
  /\ (forall es, validateConfig (CfgObject (Some (JsNumber 2)) (PrefixesArray es)) l
     = Return (CfgObject (Some (JsNumber 2)) (PrefixesArray es)))
  /\ (forall u, exists f1,
        FsConfigFetcher_findCredentials rt u (new_FsConfigFetcher l disk) = (Throw e, f1)
        /\ _config f1 = Some (Throw e)
        /\ reads (fs f1) = reads disk ++ [l]
        /\ forall u', FsConfigFetcher_findCredentials rt u' f1 = (Throw e, f1)).
Proof.
  repeat split.
  - intros v p Hv. simpl.
    destruct v as [[| |n| |]|]; simpl; try done.
    destruct n as [|[[]|[]|]|]; simpl; try done.
  - intros Heq. discriminate Heq.
  - intros u. unfold FsConfigFetcher_findCredentials.
    rewrite config_unset by (done || by eapply returns_promise_Return).
    unfold fetched. simpl.
    rewrite Hread. simpl. rewrite Hparse. simpl. rewrite Hinvalid.
    eexists. split; [reflexivity|]. simpl. repeat split.
Qed.

Lemma validateConfig_rejects_with_location_witness :
  exists f1,
    FsConfigFetcher_findCredentials Demo.rt Demo.b_x
      (new_FsConfigFetcher Demo.old_loc Demo.disk)
    = (Throw (Error "Configuration is not v2 from:s3://cfg/old.json"), f1)
    /\ reads (fs f1) = [Demo.old_loc].
Proof.
  destruct (validateConfig_rejects_with_location Demo.rt Demo.old_loc Demo.disk
              Demo.old_text (CfgObject (Some (JsNumber 1)) (PrefixesArray []))
              (Error "Configuration is not v2 from:s3://cfg/old.json")
              eq_refl eq_refl eq_refl)
    as (_ & _ & _ & _ & _ & Hload).
  destruct (Hload Demo.b_x) as (f1 & Hcall & _ & Hreads & _).
  exists f1. split; [exact Hcall | exact Hreads].
Defined.

(** ** s3.v3.ts *)

(** C10. The constant is written [1024 * 1204]: it is 1232896, not 2^20, and
    the part size is 12328960, not 10485760. *)
Theorem OneMegaByte_is_not_2_pow_20 :
  S3LikeV3.OneMegaByte = 1232896
  /\ S3LikeV3.OneMegaByte <> 2 ^ 20
  /\ S3LikeV3.uploadPartSize = 12328960
  /\ S3LikeV3.uploadPartSize <> 10 * 1048576.
Proof. repeat split; try reflexivity; intros H; discriminate H. Qed.

(** ** Fetch once *)

Lemma returns_promise_ext (a b : FileSystem) (l : URL) :
  files a = files b -> throws a = throws b ->
  returns_promise b l -> returns_promise a l.
Proof. unfold returns_promise, read. simpl. by intros -> ->. Qed.

Lemma invoked_cons (ev : Interleaved.Event) (evs : list Interleaved.Event) :
  Interleaved.invoked (ev :: evs) = Interleaved.invoked [ev] ++ Interleaved.invoked evs.
Proof. by destruct ev. Qed.

Lemma invoked_length (evs : list Interleaved.Event) :
  length (Interleaved.invoked evs) = length (filter Interleaved.is_Invoke evs).
Proof.
  induction evs as [|ev evs IH]; [done|].
  rewrite filter_cons. destruct ev; simpl; try case_decide; simpl; try done; lia.
Qed.

Section FetchOnce.
Import Interleaved.
Variable rt : Runtime.
Variable l : URL.
Variable disk : FileSystem.
Hypothesis Hpromise : returns_promise disk l.

Lemma one_read_inv_start : one_read_inv rt l disk [] (start (new_FsConfigFetcher l disk)).
Proof. repeat split; [constructor | by left]. Qed.

Lemma one_read_inv_step ev us w w' :
  one_read_inv rt l disk us w -> step rt ev w = Some w' ->
  one_read_inv rt l disk (us ++ invoked [ev]) w'.
Proof.
  intros (Hloc & Hfiles & Hthrows & Hobs & Hcase) Hstep.
  assert (fetched rt l (fs (this w)) = fetched rt l disk) as Hdoc.
  { unfold fetched. by rewrite Hfiles. }
  destruct ev as [u| |i]; simpl in Hstep.
  - destruct Hcase as [(Hnil & Hcfg & Hreads)|(Hne & Hcfg & Hreads)].
    + rewrite get_config_unset in Hstep;
        [| done | rewrite Hloc; by apply (returns_promise_ext _ disk)].
      injection Hstep as <-. unfold one_read_inv. simpl.
      rewrite Hloc, Hreads, Hdoc.
      repeat split; try done.
      * apply Forall2_app; [done|]. constructor; [by left | constructor].
      * right. repeat split. by destruct (calls w).
    + rewrite (get_config_memoized _ _ _ Hcfg) in Hstep. injection Hstep as <-.
      unfold one_read_inv. simpl. repeat split; try done.
      * apply Forall2_app; [done|]. constructor; [by left | constructor].
      * right. repeat split; try done. by destruct (calls w).
  - destruct (_config (this w)) eqn:Hcfg; [|done].
    destruct (settled w); [done|]. injection Hstep as <-.
    unfold one_read_inv. simpl. rewrite app_nil_r, Hcfg. by repeat split.
  - destruct (settled w); [|done].
    destruct (calls w !! i) as [[h p|r]|] eqn:Hi; try done.
    injection Hstep as <-. unfold one_read_inv. simpl. rewrite app_nil_r.
    repeat split; try done.
    + destruct (Forall2_lookup_r _ _ _ _ _ Hobs Hi) as (u & Hu & [Hh|Hh]);
        [|discriminate Hh].
      injection Hh as -> ->.
      rewrite <- (list_insert_id us i u Hu). apply Forall2_insert; [done|]. by right.
    + destruct Hcase as [(Hnil & _)|(Hne & Hcfg & Hreads)].
      * rewrite Hnil in Hi. done.
      * right. repeat split; try done.
        intros Hnil. apply (f_equal length) in Hnil.
        rewrite length_insert in Hnil. by destruct (calls w).
Qed.

Lemma one_read_inv_run evs : forall us w w',
  one_read_inv rt l disk us w -> run rt evs w = Some w' ->
  one_read_inv rt l disk (us ++ invoked evs) w'.
Proof.
  induction evs as [|ev evs IH]; intros us w w' Hinv Hrun; simpl in Hrun.
  - injection Hrun as <-. by rewrite app_nil_r.
  - destruct (step rt ev w) as [w1|] eqn:Hstep; [|done].
    rewrite invoked_cons, app_assoc.
    eapply IH; [|exact Hrun]. by eapply one_read_inv_step.
Qed.
End FetchOnce.

(** One call run to completion is the schedule "invoke, settle, resume". *)
Lemma sequential_call_is_a_schedule rt u (f : FsConfigFetcher) :
  _config f = None -> returns_promise (fs f) (loc f) ->
  Interleaved.run rt [Interleaved.Invoke u; Interleaved.Settle; Interleaved.Resume 0]
    (Interleaved.start f)
  = Some {| Interleaved.this := snd (FsConfigFetcher_findCredentials rt u f);
            Interleaved.settled := true;
            Interleaved.calls :=
              [Interleaved.Returned (fst (FsConfigFetcher_findCredentials rt u f))] |}.
Proof.
  intros Hf Hp. unfold FsConfigFetcher_findCredentials. simpl.
  rewrite config_unset, get_config_unset by done. reflexivity.
Qed.

(** Once the slot is set, a call returns from it and leaves the loader as it is. *)
Lemma findCredentials_memoized rt u (f : FsConfigFetcher) p :
  _config f = Some p ->
  FsConfigFetcher_findCredentials rt u f = (resume_findCredentials (href u) p, f).
Proof.
  intros Hf. unfold FsConfigFetcher_findCredentials. by rewrite (config_memoized _ _ _ Hf).
Qed.

(** C3, as the claim states it, fails: when [read] throws instead of
    returning a promise, the getter is left before the slot is assigned;
    nothing is kept, and the next call reads again.  Two calls, two reads. *)
Lemma throwing_read_is_read_again :
  exists w,
    Interleaved.run Demo.rt Demo_schedule.twice
      (Interleaved.start (new_FsConfigFetcher Demo.cfg_loc Demo.broken_disk)) = Some w
    /\ reads (fs (Interleaved.this w)) = [Demo.cfg_loc; Demo.cfg_loc]
    /\ _config (Interleaved.this w) = None
    /\ Interleaved.calls w
       = [Interleaved.Returned (Throw (IoError "EACCES"));
          Interleaved.Returned (Throw (IoError "EACCES"))].
Proof. eexists. repeat split. Qed.

(** C3 (amended). For a loader whose read returns a promise: whatever the
    interleaving of calls of [findCredentials] with the completion of the
    read, and however many calls there are, the loader has issued exactly one
    read once a call was made (none before); the slot holds the one
    settlement of read, parse and validation; the call made for a URL waits
    on that settlement or has returned the scan of it for that URL's href;
    and when the settlement is an error, every call that has returned has
    returned that error. *)
Theorem fetch_once (rt : Runtime) (l : URL) (disk : FileSystem)
    (evs : list Interleaved.Event) (w : Interleaved.Loader)
    (Hpromise : returns_promise disk l)
    (Hrun : Interleaved.run rt evs (Interleaved.start (new_FsConfigFetcher l disk)) = Some w) :
  length (Interleaved.calls w) = length (filter Interleaved.is_Invoke evs)
  /\ reads (fs (Interleaved.this w))
     = reads disk ++ (match Interleaved.calls w with [] => [] | _ :: _ => [l] end)
  /\ (Interleaved.calls w <> [] ->
      _config (Interleaved.this w) = Some (fetched rt l disk))
  /\ Forall2 (Interleaved.observes (fetched rt l disk))
       (Interleaved.invoked evs) (Interleaved.calls w)
  /\ (forall e r, fetched rt l disk = Throw e ->
        Interleaved.Returned r ∈ Interleaved.calls w -> r = Throw e).
Proof.
  destruct (one_read_inv_run rt l disk Hpromise evs _ _ _
              (one_read_inv_start rt l disk) Hrun)
    as (_ & _ & _ & Hobs & Hcase).
  simpl in Hobs.
  split; [by rewrite <- invoked_length, (Forall2_length _ _ _ Hobs)|].
  assert (forall e r, fetched rt l disk = Throw e ->
            Interleaved.Returned r ∈ Interleaved.calls w -> r = Throw e) as Herr.
  { intros e r He [i Hi]%list_elem_of_lookup_1.
    destruct (Forall2_lookup_r _ _ _ _ _ Hobs Hi) as (u & _ & [Hh|Hh]);
      [discriminate Hh|].
    injection Hh as ->. by rewrite He. }
  destruct Hcase as [(Hnil & Hcfg & Hreads)|(Hne & Hcfg & Hreads)].
  - rewrite Hnil in *. rewrite Hreads, app_nil_r. repeat split; try done.
  - destruct (Interleaved.calls w) eqn:Hc; [done|]. by repeat split.
Qed.

Lemma fetch_once_witness :
  exists w,
    Interleaved.run Demo.rt Demo_schedule.schedule
      (Interleaved.start (new_FsConfigFetcher Demo.cfg_loc Demo.disk)) = Some w
    /\ length (Interleaved.calls w) = 3%nat
    /\ reads (fs (Interleaved.this w)) = [Demo.cfg_loc].
Proof.
  eexists. split; [reflexivity|].
  split; [| reflexivity].
  exact (proj1 (fetch_once Demo.rt Demo.cfg_loc Demo.disk Demo_schedule.schedule _
                  (ex_intro _ _ eq_refl) eq_refl)).
Defined.

(** A failed fetch is kept as well: the second caller, arriving after the
    failure, sees the same error, and one read was issued. *)
Example failed_fetch_is_not_retried :
  exists w,
    Interleaved.run Demo.rt Demo_schedule.failing
      (Interleaved.start (new_FsConfigFetcher Demo.other_x Demo.disk)) = Some w
    /\ Interleaved.calls w
       = [Interleaved.Returned (Throw (IoError "NoSuchKey"));
          Interleaved.Returned (Throw (IoError "NoSuchKey"))]
    /\ reads (fs (Interleaved.this w)) = [Demo.other_x].
Proof. eexists. repeat split. Qed.

(** ** The registry *)

Lemma findCredentials_unfold rt u w :
  findCredentials rt u w
  = (fst (findCredentials_loop rt u (configs (provider w))),
     after_lookup (snd (findCredentials_loop rt u (configs (provider w)))) w).
Proof. unfold findCredentials. by destruct (findCredentials_loop _ _ _). Qed.

(** Sources that all answered "none" are passed over: the loop goes on with
    the rest. *)
Lemma findCredentials_loop_app_None rt u before before' rest :
  findCredentials_loop rt u before = (Return None, before') ->
  findCredentials_loop rt u (before ++ rest)
  = (fst (findCredentials_loop rt u rest),
     before' ++ snd (findCredentials_loop rt u rest)).
Proof.
  revert before'. induction before as [|s before IH]; intros before' H; simpl in *.
  - injection H as <-. by destruct (findCredentials_loop rt u rest).
  - destruct s as [c|f].
    + destruct (startsWith (href u) (prefix c)); [done|].
      destruct (findCredentials_loop rt u before) as [r b'] eqn:Hb.
      injection H as -> <-. by rewrite (IH b' eq_refl).
    + destruct (FsConfigFetcher_findCredentials rt u f) as [[[cs|]|e] f']; try done.
      destruct (findCredentials_loop rt u before) as [r b'] eqn:Hb.
      injection H as -> <-. by rewrite (IH b' eq_refl).
Qed.

(** A source that answers (a descriptor or an error) ends the loop: what
    follows it is not looked at and stays as it is. *)
Lemma findCredentials_loop_stop rt u s s' r after :
  findCredentials_loop rt u [s] = (r, [s']) ->
  r <> Return None ->
  findCredentials_loop rt u (s :: after) = (r, s' :: after).
Proof.
  intros H Hr. simpl in *. destruct s as [c|f].
  - destruct (startsWith (href u) (prefix c)); [by injection H as <- <-|].
    injection H as <- _. done.
  - destruct (FsConfigFetcher_findCredentials rt u f) as [[[cs|]|e] f'];
      by injection H as <- <-.
Qed.

Lemma findCredentials_loop_no_match rt u cfgs :
  Forall (source_has_no_match rt u) cfgs ->
  fst (findCredentials_loop rt u cfgs) = Return None.
Proof.
  induction 1 as [|s cfgs Hs _ IH]; simpl; [done|].
  destruct s as [c|f]; simpl in Hs.
  - apply startsWith_false in Hs. rewrite Hs.
    by destruct (findCredentials_loop rt u cfgs).
  - destruct Hs as (v & es & Hcfg & Hes).
    unfold FsConfigFetcher_findCredentials.
    destruct (config rt f) as [p f']. simpl in Hcfg. subst p. simpl.
    assert (scan_prefixes (href u) es = None) as ->.
    { apply scan_prefixes_None. eapply Forall_impl; [exact Hes|].
      intros b Hb. by apply startsWith_false. }
    by destruct (findCredentials_loop rt u cfgs).
Qed.

(** C2. Sources are tried in registration order and the first one that
    matches answers: when the sources before [s] all answered "none" and [s]
    answers with [c], the lookup returns [c], and the sources after [s] are
    left exactly as they were (no loader among them is asked, nothing is
    read).  In particular, of two registered descriptors that both match, the
    one registered first is returned. *)
Theorem findCredentials_first_match_wins
    (rt : Runtime) (u : URL) (w : World)
    (before before' after : list Source) (s s' : Source) (c : AwsCredentialConfig)
    (Hcfgs : configs (provider w) = before ++ s :: after)
    (Hbefore : findCredentials_loop rt u before = (Return None, before'))
    (Hs : findCredentials_loop rt u [s] = (Return (Some c), [s'])) :
  findCredentials rt u w = (Return (Some c), after_lookup (before' ++ s' :: after) w)
  /\ (forall f1 f2 : AwsCredentialConfig,
        is_textual_prefix (prefix f1) (href u) ->
        is_textual_prefix (prefix f2) (href u) ->
        fst (findCredentials rt u
               (register f2 (register f1 (after_lookup before w))))
        = Return (Some {| prefix := prefix f1; roleArn := roleArn f1;
                          externalId := externalId f1;
                          roleSessionDuration := roleSessionDuration f1;
                          type := Some "s3" |})).
Proof.
  split.
  - rewrite findCredentials_unfold, Hcfgs.
    rewrite (findCredentials_loop_app_None _ _ _ _ _ Hbefore).
    rewrite (findCredentials_loop_stop _ _ _ _ _ after Hs) by done.
    reflexivity.
  - intros f1 f2 H1 H2. rewrite findCredentials_unfold. simpl.
    rewrite <- app_assoc.
    rewrite (findCredentials_loop_app_None _ _ _ _ _ Hbefore). simpl.
    apply startsWith_true in H1. by rewrite H1.
Qed.

Lemma findCredentials_first_match_wins_witness :
  findCredentials Demo.rt Demo.b_x Demo.three_sources
  = (Return (Some Demo.role_B),
     after_lookup
       ([Inline Demo.role_A_s3]
        ++ Fetcher {| loc := Demo.cfg_loc;
                      fs := {| files := files Demo.disk; throws := throws Demo.disk;
                              reads := [Demo.cfg_loc] |};
                      _config := Some (fetched Demo.rt Demo.cfg_loc Demo.disk) |}
        :: [Fetcher (new_FsConfigFetcher Demo.old_loc Demo.disk)])
       Demo.three_sources).
Proof.
  exact (proj1 (findCredentials_first_match_wins Demo.rt Demo.b_x Demo.three_sources
                  [Inline Demo.role_A_s3] [Inline Demo.role_A_s3]
                  [Fetcher (new_FsConfigFetcher Demo.old_loc Demo.disk)]
                  (Fetcher (new_FsConfigFetcher Demo.cfg_loc Demo.disk)) _
                  Demo.role_B eq_refl eq_refl eq_refl)).
Defined.

(** C6. A loader that fails ends the lookup with its error: when the sources
    before it all answered "none" and its promise rejects with [e], then
    [findCredential] of the loader, [findCredentials] and [find] all fail with
    that same [e]; the sources after it are left as they were, whatever they
    would have answered, and nothing else of the provider changes.  For a
    loader that had not fetched yet, [e] is the error of the read, or of
    [JSON.parse], or of [validateConfig]. *)
Theorem loader_failure_aborts_lookup
    (rt : Runtime) (u : URL) (w : World)
    (before before' after : list Source) (f f' : FsConfigFetcher) (e : JsError)
    (Hcfgs : configs (provider w) = before ++ Fetcher f :: after)
    (Hbefore : findCredentials_loop rt u before = (Return None, before'))
    (Hfail : config rt f = (Throw e, f')) :
  FsConfigFetcher_findCredentials rt u f = (Throw e, f')
  /\ findCredentials rt u w
     = (Throw e, after_lookup (before' ++ Fetcher f' :: after) w)
  /\ find rt u w
     = (Throw e, after_lookup (before' ++ Fetcher f' :: after) w)
  /\ (_config f = None ->
      files (fs f) (loc f) = Throw e
      \/ (exists text, files (fs f) (loc f) = Return text
                       /\ JSON_parse rt text = Throw e)
      \/ (exists text cfg, files (fs f) (loc f) = Return text
                           /\ JSON_parse rt text = Return cfg
                           /\ validateConfig cfg (loc f) = Throw e)).
Proof.
  assert (FsConfigFetcher_findCredentials rt u f = (Throw e, f')) as Hf.
  { unfold FsConfigFetcher_findCredentials. by rewrite Hfail. }
  assert (findCredentials rt u w
          = (Throw e, after_lookup (before' ++ Fetcher f' :: after) w)) as Hw.
  { rewrite findCredentials_unfold, Hcfgs.
    rewrite (findCredentials_loop_app_None _ _ _ _ _ Hbefore).
    simpl. by rewrite Hf. }
  split; [exact Hf|]. split; [exact Hw|]. split.
  - unfold find. by rewrite Hw.
  - intros Hnone. pose proof (config_unset_fst rt f Hnone) as Hfst.
    rewrite Hfail in Hfst. simpl in Hfst. symmetry in Hfst.
    clear Hfail. rename Hfst into Hfail. unfold fetched, then_ in Hfail.
    destruct (files (fs f) (loc f)) as [text|e0]; [|left; congruence].
    right. destruct (JSON_parse rt text) as [cfg|e0] eqn:Hp.
    + right. by exists text, cfg.
    + left. exists text. split; [done | congruence].
Qed.

Lemma loader_failure_aborts_lookup_witness :
  find Demo.rt Demo.b_x Demo.failing_first
  = (Throw (Error "Configuration is not v2 from:s3://cfg/old.json"),
     after_lookup
       ([Inline Demo.role_A_s3]
        ++ Fetcher {| loc := Demo.old_loc;
                      fs := {| files := files Demo.disk; throws := throws Demo.disk;
                              reads := [Demo.old_loc] |};
                      _config := Some (fetched Demo.rt Demo.old_loc Demo.disk) |}
        :: [Inline {| prefix := "s3://bucket-b/"; roleArn := "role-B";
                      externalId := None; roleSessionDuration := None;
                      type := Some "s3" |}])
       Demo.failing_first).
Proof.
  exact (proj1 (proj2 (proj2
    (loader_failure_aborts_lookup Demo.rt Demo.b_x Demo.failing_first
       [Inline Demo.role_A_s3] [Inline Demo.role_A_s3] _
       (new_FsConfigFetcher Demo.old_loc Demo.disk) _ _
       eq_refl eq_refl eq_refl)))).
Defined.

(** C8. When every registered source answers "none" for a URL, [find]
    returns none as a normal result: nothing is thrown, no client is built,
    the callback is not called, and the cache is as before. *)
Theorem no_match_returns_none
    (rt : Runtime) (u : URL) (w : World)
    (Hnone : Forall (source_has_no_match rt u) (configs (provider w))) :
  exists w1,
    find rt u w = (Return None, w1)
    /\ findCredentials rt u w = (Return None, w1)
    /\ fileSystems (provider w1) = fileSystems (provider w)
    /\ created w1 = created w
    /\ notified w1 = notified w.
Proof.
  apply (findCredentials_loop_no_match rt u) in Hnone.
  exists (after_lookup (snd (findCredentials_loop rt u (configs (provider w)))) w).
  assert (findCredentials rt u w
          = (Return None,
             after_lookup (snd (findCredentials_loop rt u (configs (provider w)))) w)) as Hw.
  { by rewrite findCredentials_unfold, Hnone. }
  split; [|by repeat split]. unfold find. by rewrite Hw.
Qed.

Lemma no_match_returns_none_witness :
  exists w1,
    find Demo.rt Demo.other_x Demo.two_sources = (Return None, w1)
    /\ fileSystems (provider w1) = ∅
    /\ created w1 = [].
Proof.
  destruct (no_match_returns_none Demo.rt Demo.other_x Demo.two_sources)
    as (w1 & Hfind & _ & Hfs & Hcreated & _).
  - repeat constructor.
    + simpl. intros [rest Hrest]. discriminate Hrest.
    + simpl. exists (Some (JsNumber 2)), [Demo.role_B]. split; [reflexivity|].
      repeat constructor. intros [rest Hrest]. discriminate Hrest.
  - exists w1. split; [exact Hfind|]. split; [exact Hfs | exact Hcreated].
Defined.

(** ** The client cache *)

Lemma findCredentials_frame rt u w r w1 :
  findCredentials rt u w = (r, w1) -> exists cfgs, w1 = after_lookup cfgs w.
Proof. rewrite findCredentials_unfold. intros [= _ <-]. by eexists. Qed.

Lemma find_hit rt u w cs w1 c :
  findCredentials rt u w = (Return (Some cs), w1) ->
  fileSystems (provider w) !! cacheKey cs = Some c ->
  find rt u w = (Return (Some c), w1).
Proof.
  intros Hcs Hc. unfold find. rewrite Hcs.
  apply findCredentials_frame in Hcs as [cfgs ->]. simpl. by rewrite Hc.
Qed.

Lemma find_miss rt u w cs w1 :
  findCredentials rt u w = (Return (Some cs), w1) ->
  fileSystems (provider w) !! cacheKey cs = None ->
  find rt u w
  = (miss_outcome (onFileSystemCreated (provider w)) cs (fst (createFileSystem rt cs w1)),
     after_miss cs (fst (createFileSystem rt cs w1)) w1).
Proof.
  intros Hcs Hc. unfold find. rewrite Hcs.
  apply findCredentials_frame in Hcs as [cfgs ->]. simpl. rewrite Hc.
  unfold after_miss, notify, miss_outcome. simpl.
  destruct (onFileSystemCreated (provider w)) as [cb|]; simpl; [|done].
  by destruct (raised cb cs _).
Qed.

Lemma miss_outcome_Return cb cs c c' :
  miss_outcome cb cs c = Return (Some c') -> c' = c.
Proof.
  unfold miss_outcome. destruct cb as [f|]; [destruct (raised f cs c)|]; congruence.
Qed.

Lemma after_miss_fields cs c w1 :
  fileSystems (provider (after_miss cs c w1))
    = <[cacheKey cs := c]> (fileSystems (provider w1))
  /\ created (after_miss cs c w1) = created w1 ++ [(cs, c)]
  /\ notified (after_miss cs c w1)
     = notified w1 ++ match onFileSystemCreated (provider w1) with
                      | Some cb => [(cb, cs, c)]
                      | None => []
                      end.
Proof.
  unfold after_miss, notify. simpl.
  destruct (onFileSystemCreated (provider w1)); simpl; by rewrite ?app_nil_r.
Qed.

Lemma cacheKey_same_role cs1 cs2 :
  roleArn cs1 = roleArn cs2 ->
  externalId cs1 = externalId cs2 ->
  roleSessionDuration cs1 = roleSessionDuration cs2 ->
  cacheKey cs1 = cacheKey cs2.
Proof. unfold cacheKey. by intros -> -> ->. Qed.

Lemma cache_inv_find rt u w : cache_inv w -> cache_inv (snd (find rt u w)).
Proof.
  intros [Hnd Hin].
  destruct (findCredentials rt u w) as [r w1] eqn:Hcs.
  destruct (findCredentials_frame _ _ _ _ _ Hcs) as [cfgs Hw1].
  destruct r as [[cs|]|e].
  - destruct (fileSystems (provider w) !! cacheKey cs) as [c|] eqn:Hc.
    + rewrite (find_hit _ _ _ _ _ _ Hcs Hc). by subst w1.
    + rewrite (find_miss _ _ _ _ _ Hcs Hc). cbn [snd].
      destruct (after_miss_fields cs (fst (createFileSystem rt cs w1)) w1)
        as (Hfs & Hcr & _).
      unfold cache_inv. rewrite Hfs, Hcr. subst w1. simpl. split.
      * rewrite map_app. simpl. apply NoDup_app. split; [done|]. split.
        -- intros k Hk ->%list_elem_of_singleton.
           apply list_elem_of_fmap in Hk as [[cs0 c0] [Hk0 Hin0]]. simpl in Hk0.
           apply Hin in Hin0. rewrite <- Hk0 in Hin0. congruence.
        -- apply NoDup_singleton.
      * intros cs0 c0 [Hin0|Heq%list_elem_of_singleton]%elem_of_app.
        -- destruct (decide (cacheKey cs = cacheKey cs0)) as [Heq|Hne].
           ++ apply Hin in Hin0. rewrite <- Heq in Hin0. congruence.
           ++ rewrite lookup_insert_ne by done. by apply Hin.
        -- injection Heq as -> ->. apply lookup_insert_eq.
  - unfold find. rewrite Hcs. by subst w1.
  - unfold find. rewrite Hcs. by subst w1.
Qed.

Lemma cache_inv_exec rt op w : cache_inv w -> cache_inv (exec rt op w).
Proof. destruct op; simpl; [done | done | apply cache_inv_find]. Qed.

Lemma cache_inv_exec_all rt ops : forall w,
  cache_inv w -> cache_inv (exec_all rt ops w).
Proof.
  induction ops as [|op ops IH]; intros w Hw; simpl; [done|].
  apply IH. by apply cache_inv_exec.
Qed.

(** C5. A [find] that resolves a descriptor and misses the cache builds one
    client, has it in the cache under the descriptor's key when it returns,
    and calls the callback, when one is installed, once with that descriptor
    and that client; it returns the client, unless the callback throws: then
    it fails with the callback's error, after the client was cached.  A
    [find] that hits the cache returns the cached client and neither builds
    nor calls anything. *)
Theorem find_populates_cache
    (rt : Runtime) (u : URL) (w w1 : World) (cs : AwsCredentialConfig)
    (Hcs : findCredentials rt u w = (Return (Some cs), w1)) :
  (fileSystems (provider w) !! cacheKey cs = None ->
   exists c w2,
     find rt u w = (miss_outcome (onFileSystemCreated (provider w)) cs c, w2)
     /\ ((forall cb, onFileSystemCreated (provider w) = Some cb -> raised cb cs c = None) ->
         find rt u w = (Return (Some c), w2))
     /\ c = fst (createFileSystem rt cs w1)
     /\ RoleArn c = roleArn cs
     /\ fileSystems (provider w2) = <[cacheKey cs := c]> (fileSystems (provider w))
     /\ fileSystems (provider w2) !! cacheKey cs = Some c
     /\ created w2 = created w ++ [(cs, c)]
     /\ notified w2
        = notified w ++ match onFileSystemCreated (provider w) with
                        | Some cb => [(cb, cs, c)]
                        | None => []
                        end)
  /\ (forall c, fileSystems (provider w) !! cacheKey cs = Some c ->
      find rt u w = (Return (Some c), w1)
      /\ fileSystems (provider w1) = fileSystems (provider w)
      /\ created w1 = created w
      /\ notified w1 = notified w).
Proof.
  destruct (findCredentials_frame _ _ _ _ _ Hcs) as [cfgs Hw1].
  split.
  - intros Hmiss. eexists _, _. split; [exact (find_miss _ _ _ _ _ Hcs Hmiss)|].
    split.
    { intros Hquiet. rewrite (find_miss _ _ _ _ _ Hcs Hmiss). f_equal.
      unfold miss_outcome. destruct (onFileSystemCreated (provider w)) as [cb|]; [|done].
      by rewrite (Hquiet cb eq_refl). }
    destruct (after_miss_fields cs (fst (createFileSystem rt cs w1)) w1)
      as (Hfs & Hcr & Hno).
    rewrite Hfs, Hcr, Hno. subst w1. simpl.
    repeat split. apply lookup_insert_eq.
  - intros c Hhit. split; [exact (find_hit _ _ _ _ _ _ Hcs Hhit)|]. by subst w1.
Qed.

Lemma find_populates_cache_witness :
  exists c w2,
    find Demo.rt Demo.b_x Demo.two_sources = (Return (Some c), w2)
    /\ RoleArn c = "role-B"
    /\ RoleSessionName c = "fsa-v3-1700000000000-r0"
    /\ fileSystems (provider w2) !! "role-B__undefined__undefined" = Some c
    /\ created w2 = [(Demo.role_B, c)].
Proof.
  destruct (proj1 (find_populates_cache Demo.rt Demo.b_x Demo.two_sources _
                     Demo.role_B eq_refl) eq_refl)
    as (c & w2 & Hfind & _ & -> & Hrole & _ & Hin & Hcr & _).
  eexists _, w2. split; [exact Hfind|]. split; [exact Hrole|].
  split; [reflexivity|]. split; [exact Hin | exact Hcr].
Defined.

(** C9. The key is the three fields joined by [__], and the fields may
    themselves contain [__]: the descriptors [reader] and [reader_ext] differ
    in [roleArn] and in [externalId] and have the same key.  With both
    registered, the lookup for the second tenant resolves [reader_ext] and
    [find] answers with the client that was built for the role of [reader]. *)
Theorem cacheKey_collision :
  roleArn Demo_roles.reader <> roleArn Demo_roles.reader_ext
  /\ externalId Demo_roles.reader <> externalId Demo_roles.reader_ext
  /\ cacheKey Demo_roles.reader = cacheKey Demo_roles.reader_ext
  /\ exists c w1 w2 cs2,
       find Demo.rt Demo_roles.tenant_a Demo_roles.tenants = (Return (Some c), w1)
       /\ fst (findCredentials Demo.rt Demo_roles.tenant_b w1) = Return (Some cs2)
       /\ find Demo.rt Demo_roles.tenant_b w1 = (Return (Some c), w2)
       /\ RoleArn c = "arn:aws:iam::1:role/read"
       /\ roleArn cs2 = "arn:aws:iam::1:role/read__ext"
       /\ length (created w2) = 1%nat.
Proof.
  split; [intros H; discriminate H|].
  split; [intros H; discriminate H|].
  split; [reflexivity|].
  eexists _, _, _, _.
  split; [vm_compute; reflexivity|].
  split; [vm_compute; reflexivity|].
  split; [vm_compute; reflexivity|].
  repeat split.
Qed.

(** Where the collisions come from: on descriptors whose [roleArn] and
    [externalId] have no [_] in them, and whose [externalId] is not the word
    [undefined], the key does determine the three fields. *)
Lemma split_at_underscore (a a' r r' : string) :
  no_underscore a = true -> no_underscore a' = true ->
  a +:+ String "_" r = a' +:+ String "_" r' -> a = a' /\ r = r'.
Proof.
  revert a'. induction a as [|c a IH]; intros [|c' a'] Ha Ha' Heq; simpl in *.
  - by injection Heq.
  - injection Heq as <- _. by rewrite Ascii.eqb_refl in Ha'.
  - injection Heq as -> _. by rewrite Ascii.eqb_refl in Ha.
  - injection Heq as -> Heq.
    apply andb_true_iff in Ha as [_ Ha]. apply andb_true_iff in Ha' as [_ Ha'].
    destruct (IH a' Ha Ha' Heq) as [-> ->]. done.
Qed.

Lemma pretty_N_go_digit (x : N) : forall s,
  (0 < x)%N -> exists d rest, pretty_N_go x s = String (pretty_N_char d) rest.
Proof.
  induction (N.lt_wf_0 x) as [x _ IH]; intros s Hx.
  rewrite pretty_N_go_step by done.
  destruct (decide (x `div` 10 = 0)%N) as [H0|Hn0].
  - rewrite H0, pretty_N_go_0. by eexists _, _.
  - apply IH; [apply N.div_lt; lia | by apply N.neq_0_lt_0].
Qed.

Lemma pretty_N_char_not_u (d : N) : pretty_N_char d <> "u"%char.
Proof. unfold pretty_N_char. by repeat case_match. Qed.

Lemma pretty_Z_not_undefined (z : Z) : pretty z <> "undefined".
Proof.
  destruct z as [|x|x]; [done| |done].
  unfold pretty, pretty_Z, pretty, pretty_positive, pretty, pretty_N. simpl.
  destruct (pretty_N_go_digit (N.pos x) "") as (d & rest & ->); [lia|].
  intros [= H _]. by apply pretty_N_char_not_u in H.
Qed.

(** X18. On descriptors whose [roleArn] and [externalId] contain no [_], and
    whose [externalId] is not the word [undefined], the key determines the
    role, the external id and the session duration: equal keys mean equal
    fields. *)
Lemma cacheKey_injective_plain (cs1 cs2 : AwsCredentialConfig) :
  no_underscore (roleArn cs1) = true -> no_underscore (roleArn cs2) = true ->
  plain_externalId (externalId cs1) -> plain_externalId (externalId cs2) ->
  cacheKey cs1 = cacheKey cs2 ->
  roleArn cs1 = roleArn cs2
  /\ externalId cs1 = externalId cs2
  /\ roleSessionDuration cs1 = roleSessionDuration cs2.
Proof.
  intros Hr1 Hr2 He1 He2. unfold cacheKey. simpl.
  intros [Hrole [= Hrest]]%split_at_underscore; [|done..].
  apply split_at_underscore in Hrest as [Hext [= Hdur]].
  - repeat split; [done| |].
    + destruct (externalId cs1) as [e1|], (externalId cs2) as [e2|];
        simpl in *; try done; try congruence.
      * destruct He1 as [_ He1]. congruence.
      * destruct He2 as [_ He2]. congruence.
    + destruct (roleSessionDuration cs1) as [d1|], (roleSessionDuration cs2) as [d2|];
        simpl in *; try done.
      * f_equal. by apply (inj pretty).
      * by apply pretty_Z_not_undefined in Hdur.
      * symmetry in Hdur. by apply pretty_Z_not_undefined in Hdur.
  - destruct (externalId cs1) as [e1|]; [apply He1 | done].
  - destruct (externalId cs2) as [e2|]; [apply He2 | done].
Qed.

(** An absent [externalId] and the external id spelled [undefined] give the
    same key as well. *)
Example cacheKey_undefined_collision :
  cacheKey {| prefix := "s3://a/"; roleArn := "role-A"; externalId := None;
              roleSessionDuration := None; type := None |}
  = cacheKey {| prefix := "s3://a/"; roleArn := "role-A"; externalId := Some "undefined";
                roleSessionDuration := None; type := None |}.
Proof. reflexivity. Qed.

(** Scenario 1 of the specification: a second [find] returns the client of
    the first. *)
Example find_twice_same_client :
  exists c w1 w2,
    find Demo.rt Demo.key_txt (register Demo.role_A (new_AwsS3CredentialProvider None None))
    = (Return (Some c), w1)
    /\ find Demo.rt Demo.key_txt w1 = (Return (Some c), w2)
    /\ RoleArn c = "role-A"
    /\ length (created w2) = 1%nat.
Proof.
  eexists _, _, _.
  split; [vm_compute; reflexivity|].
  split; [vm_compute; reflexivity|].
  repeat split.
Qed.

(** Two prefixes of one role share the client. *)
Example two_prefixes_one_client :
  exists c w1 w2,
    find Demo.rt Demo.key_txt Demo_roles.two_prefixes = (Return (Some c), w1)
    /\ find Demo.rt Demo_roles.c_x w1 = (Return (Some c), w2)
    /\ created w2 = [(Demo.role_A_s3, c)].
Proof.
  eexists _, _, _.
  split; [vm_compute; reflexivity|].
  split; [vm_compute; reflexivity|].
  reflexivity.
Qed.

(** A callback that throws makes the [find] that built the client fail,
    after the client was cached: the next [find] returns it, and the callback
    is not called again. *)
Example throwing_callback_keeps_client :
  exists c w1 w2,
    find Demo.rt Demo.key_txt
      (register Demo.role_A (new_AwsS3CredentialProvider None (Some Demo.angry)))
    = (Throw (Error "observer failed"), w1)
    /\ find Demo.rt Demo.key_txt w1 = (Return (Some c), w2)
    /\ created w2 = [(Demo.role_A_s3, c)]
    /\ notified w2 = [(Demo.angry, Demo.role_A_s3, c)].
Proof.
  eexists _, _, _.
  split; [vm_compute; reflexivity|].
  split; [vm_compute; reflexivity|].
  split; reflexivity.
Qed.

(** A read that throws is issued again by every lookup, and nothing else of
    the provider changes. *)
Example throwing_read_fails_every_find :
  exists w1 w2 f,
    find Demo.rt Demo.b_x
      (registerConfig Demo.cfg_loc Demo.broken_disk (new_AwsS3CredentialProvider None None))
    = (Throw (IoError "EACCES"), w1)
    /\ find Demo.rt Demo.b_x w1 = (Throw (IoError "EACCES"), w2)
    /\ configs (provider w2) = [Fetcher f]
    /\ _config f = None
    /\ reads (fs f) = [Demo.cfg_loc; Demo.cfg_loc].
Proof.
  eexists _, _, _.
  split; [vm_compute; reflexivity|].
  split; [vm_compute; reflexivity|].
  repeat split.
Qed.

(** * Further properties of the code *)

(** ** validateConfig *)

(** X1. [validateConfig] hands back the very document it was given, and does
    so exactly when [v] is the number 2 and [prefixes] is an array; in every
    other case it throws an [Error] whose message is one of three texts
    followed by the location. *)
Theorem validateConfig_outcomes (cfg : AwsCredentialProvider) (l : URL) :
  (forall cfg', validateConfig cfg l = Return cfg' <->
                cfg' = cfg
                /\ exists es, cfg = CfgObject (Some (JsNumber 2)) (PrefixesArray es))
  /\ ((exists es, cfg = CfgObject (Some (JsNumber 2)) (PrefixesArray es))
      \/ exists label,
           label ∈ ["Unknown configuration from:"; "Configuration is not v2 from:";
                    "Configuration prefixes invalid from:"]
           /\ validateConfig cfg l = Throw (Error (label +:+ href l))).
Proof.
  split.
  - intros cfg'. split.
    + intros (es & -> & ->)%validateConfig_Return. split; [done | by exists es].
    + intros (-> & es & ->). reflexivity.
  - destruct cfg as [|v p].
    + right. eexists. split; [|reflexivity]. set_solver.
    + destruct (v_is_not_2 v) eqn:Hv.
      * right. exists "Configuration is not v2 from:". split; [set_solver|].
        simpl. by rewrite Hv.
      * assert (v = Some (JsNumber 2)) as ->.
        { destruct v as [[| |n| |]|]; try done.
          by destruct n as [|[[]|[]|]|]. }
        destruct p as [|x|es].
        -- right. exists "Configuration prefixes invalid from:". split; [set_solver|done].
        -- right. exists "Configuration prefixes invalid from:". split; [set_solver|done].
        -- left. by exists es.
Qed.

(** ** streamToBuffer and getObject *)

Lemma fold_on_data (cs : list (list Byte.byte)) : forall st,
  fold_left Readable.on_event (map Readable.OnData cs) st
  = {| Readable.chunks := Readable.chunks st ++ cs;
       Readable.settlement := Readable.settlement st |}.
Proof.
  induction cs as [|c cs IH]; intros st; simpl.
  - rewrite app_nil_r. by destruct st.
  - rewrite IH. simpl. by rewrite <- app_assoc.
Qed.

Lemma fold_settled (evs : list Readable.StreamEvent) : forall st o,
  Readable.settlement st = Some o ->
  Readable.settlement (fold_left Readable.on_event evs st) = Some o.
Proof.
  induction evs as [|ev evs IH]; intros st o Hst; simpl; [done|].
  apply IH. destruct ev; simpl; [done| |]; unfold Readable.settle; by rewrite Hst.
Qed.

Lemma streamToBuffer_outcome_helper
    (cs : list (list Byte.byte)) (rest : list Readable.StreamEvent) (e : JsError) :
  Readable.streamToBuffer (Some (map Readable.OnData cs ++ Readable.OnEnd :: rest))
    = Some (Return (Some (concat cs)))
  /\ Readable.streamToBuffer (Some (map Readable.OnData cs ++ Readable.OnError e :: rest))
    = Some (Throw e).
Proof.
  unfold Readable.streamToBuffer.
  rewrite !fold_left_app, !fold_on_data. simpl.
  rewrite (fold_settled rest _ (Return (concat cs))) by done.
  rewrite (fold_settled rest _ (Throw e)) by done.
  done.
Qed.

(** X2. [streamToBuffer] settles with the first [end] or [error] of the
    stream: chunks followed by [end] give the chunks joined in order, chunks
    followed by [error] reject with that error, and what the stream emits
    afterwards changes nothing.  While the stream has only delivered data the
    promise is pending; without a stream it resolves to [undefined]. *)
Theorem streamToBuffer_first_end_or_error
    (cs : list (list Byte.byte)) (rest : list Readable.StreamEvent) (e : JsError) :
  Readable.streamToBuffer (Some (map Readable.OnData cs ++ Readable.OnEnd :: rest))
    = Some (Return (Some (concat cs)))
  /\ Readable.streamToBuffer (Some (map Readable.OnData cs ++ Readable.OnError e :: rest))
    = Some (Throw e)
  /\ Readable.streamToBuffer (Some (map Readable.OnData cs)) = None
  /\ Readable.streamToBuffer None = Some (Return None).
Proof.
  destruct (streamToBuffer_outcome_helper cs rest e) as (Hend & Herr).
  split; [exact Hend|]. split; [exact Herr|].
  unfold Readable.streamToBuffer. by rewrite fold_on_data.
Qed.

(** X3. [getObject(req).promise()] fails with the error of [send] or with
    the error of the body stream, unchanged; otherwise it returns the response
    with the body read to its end, the chunks joined in order, and with
    [ContentRange] as the SDK gave it; a response without a body stays
    without one. *)
Theorem getObject_promise_reads_whole_body
    (cs : list (list Byte.byte)) (rest : list Readable.StreamEvent)
    (range : option string) (e : JsError) :
  Readable.getObject_promise (Throw e) = Some (Throw e)
  /\ Readable.getObject_promise
       (Return {| Readable.Body := None; Readable.ContentRange := range |})
     = Some (Return {| Readable.Body := None; Readable.ContentRange := range |})
  /\ Readable.getObject_promise
       (Return {| Readable.Body := Some (map Readable.OnData cs ++ Readable.OnEnd :: rest);
                  Readable.ContentRange := range |})
     = Some (Return {| Readable.Body := Some (concat cs); Readable.ContentRange := range |})
  /\ Readable.getObject_promise
       (Return {| Readable.Body := Some (map Readable.OnData cs ++ Readable.OnError e :: rest);
                  Readable.ContentRange := range |})
     = Some (Throw e).
Proof.
  destruct (streamToBuffer_outcome_helper cs rest e) as (Hend & Herr).
  unfold Readable.getObject_promise. simpl Readable.Body.
  rewrite Hend, Herr. done.
Qed.

(** ** Lookups *)

Lemma fetcher_findCredentials_cases rt u (f : FsConfigFetcher) :
  (_config f = None /\ returns_promise (fs f) (loc f)
   /\ FsConfigFetcher_findCredentials rt u f
      = (resume_findCredentials (href u) (fetched rt (loc f) (fs f)),
         {| loc := loc f;
            fs := {| files := files (fs f); throws := throws (fs f);
                     reads := reads (fs f) ++ [loc f] |};
            _config := Some (fetched rt (loc f) (fs f)) |}))
  \/ (exists e, _config f = None /\ fst (read (fs f) (loc f)) = ReadThrows e
      /\ FsConfigFetcher_findCredentials rt u f
         = (Throw e,
            {| loc := loc f;
               fs := {| files := files (fs f); throws := throws (fs f);
                        reads := reads (fs f) ++ [loc f] |};
               _config := None |}))
  \/ (exists p, _config f = Some p
      /\ FsConfigFetcher_findCredentials rt u f = (resume_findCredentials (href u) p, f)).
Proof.
  unfold FsConfigFetcher_findCredentials.
  destruct (_config f) as [p|] eqn:Hf.
  - right. right. exists p. by rewrite (config_memoized _ _ _ Hf).
  - destruct (read_cases (fs f) (loc f)) as [[Hp _]|(e & Hr & _)].
    + left. by rewrite config_unset.
    + right. left. exists e. destruct (config_throws rt f e Hf Hr) as [-> _]. done.
Qed.

(** A call that returns (a descriptor or none) leaves the slot set, with a
    promise whose scan is what was returned. *)
Lemma fetcher_findCredentials_Return rt u (f f' : FsConfigFetcher) x :
  FsConfigFetcher_findCredentials rt u f = (Return x, f') ->
  exists p, _config f' = Some p /\ resume_findCredentials (href u) p = Return x.
Proof.
  destruct (fetcher_findCredentials_cases rt u f)
    as [(Hf & _ & ->)|[(e & Hf & _ & ->)|(p & Hf & ->)]]; intros [= Hx <-].
  - by eexists.
  - by exists p.
Qed.

Lemma fetcher_findCredentials_again rt u (f f' : FsConfigFetcher) r :
  source_promises (Fetcher f) ->
  FsConfigFetcher_findCredentials rt u f = (r, f') ->
  FsConfigFetcher_findCredentials rt u f' = (r, f') /\ source_promises (Fetcher f').
Proof.
  intros Hq.
  destruct (fetcher_findCredentials_cases rt u f)
    as [(Hf & _ & ->)|[(e & Hf & Hr & ->)|(p & Hf & ->)]]; intros [= <- <-].
  - split; [by apply findCredentials_memoized | by left].
  - destruct Hq as [[p Hp]|[p Hp]]; congruence.
  - split; [by apply findCredentials_memoized | left; by rewrite Hf].
Qed.

Lemma fetcher_findCredentials_shape rt u (f f' : FsConfigFetcher) r :
  FsConfigFetcher_findCredentials rt u f = (r, f') ->
  loc f' = loc f /\ files (fs f') = files (fs f).
Proof.
  destruct (fetcher_findCredentials_cases rt u f)
    as [(Hf & _ & ->)|[(e & Hf & _ & ->)|(p & Hf & ->)]]; by intros [= <- <-].
Qed.

Lemma findCredentials_loop_again rt u cfgs : forall r cfgs',
  Forall source_promises cfgs ->
  findCredentials_loop rt u cfgs = (r, cfgs') ->
  findCredentials_loop rt u cfgs' = (r, cfgs') /\ Forall source_promises cfgs'.
Proof.
  induction cfgs as [|s cfgs IH]; intros r cfgs' Hq H; simpl in H.
  - by injection H as <- <-.
  - apply Forall_cons in Hq as [Hs Hq]. destruct s as [c|f].
    + destruct (startsWith (href u) (prefix c)) eqn:Hc.
      * injection H as <- <-. simpl. rewrite Hc. split; [done | by constructor].
      * destruct (findCredentials_loop rt u cfgs) as [r0 rest'] eqn:Hrest.
        injection H as <- <-. destruct (IH _ _ Hq eq_refl) as [Hagain Hq'].
        simpl. rewrite Hc, Hagain. split; [done | by constructor].
    + destruct (FsConfigFetcher_findCredentials rt u f) as [r0 f'] eqn:Hf.
      apply fetcher_findCredentials_again in Hf as [Hf Hs']; [|done].
      destruct r0 as [[cs|]|e].
      * injection H as <- <-. simpl. rewrite Hf. split; [done | by constructor].
      * destruct (findCredentials_loop rt u cfgs) as [r1 rest'] eqn:Hrest.
        injection H as <- <-. destruct (IH _ _ Hq eq_refl) as [Hagain Hq'].
        simpl. rewrite Hf, Hagain. split; [done | by constructor].
      * injection H as <- <-. simpl. rewrite Hf. split; [done | by constructor].
Qed.

Lemma findCredentials_loop_shape rt u cfgs :
  map source_shape (snd (findCredentials_loop rt u cfgs)) = map source_shape cfgs.
Proof.
  induction cfgs as [|s cfgs IH]; simpl; [done|].
  destruct s as [c|f].
  - destruct (startsWith (href u) (prefix c)); [done|].
    destruct (findCredentials_loop rt u cfgs) as [r rest']. simpl in *. by rewrite IH.
  - destruct (FsConfigFetcher_findCredentials rt u f) as [r0 f'] eqn:Hf.
    destruct (fetcher_findCredentials_shape _ _ _ _ _ Hf) as [Hl Hfiles].
    destruct r0 as [[cs|]|e]; simpl; rewrite ?Hl, ?Hfiles; try done.
    destruct (findCredentials_loop rt u cfgs) as [r rest']. simpl in *.
    by rewrite Hl, Hfiles, IH.
Qed.

(** An answer (a descriptor or an error) does not depend on what is
    registered after the source that gave it. *)
Lemma findCredentials_loop_app_answer rt u cfgs more : forall r cfgs',
  findCredentials_loop rt u cfgs = (r, cfgs') ->
  r <> Return None ->
  findCredentials_loop rt u (cfgs ++ more) = (r, cfgs' ++ more).
Proof.
  induction cfgs as [|s cfgs IH]; intros r cfgs' H Hr; simpl in H.
  - by injection H as <- <-.
  - simpl. destruct s as [c|f].
    + destruct (startsWith (href u) (prefix c)); [by injection H as <- <-|].
      destruct (findCredentials_loop rt u cfgs) as [r0 rest'] eqn:Hrest.
      injection H as <- <-. by rewrite (IH _ _ eq_refl Hr).
    + destruct (FsConfigFetcher_findCredentials rt u f) as [[[cs|]|e] f'];
        try by injection H as <- <-.
      destruct (findCredentials_loop rt u cfgs) as [r0 rest'] eqn:Hrest.
      injection H as <- <-. by rewrite (IH _ _ eq_refl Hr).
Qed.

Lemma resume_findCredentials_Some h p c :
  resume_findCredentials h p = Return (Some c) ->
  exists v es, p = Return (CfgObject v (PrefixesArray es))
               /\ c ∈ es /\ startsWith h (prefix c) = true.
Proof.
  destruct p as [[|v [|x|es]]|e]; simpl; try done.
  intros [= (before & after & -> & Hc & _)%scan_prefixes_Some].
  exists v, (before ++ c :: after). repeat split; [|done].
  apply elem_of_app. right. by left.
Qed.

Lemma findCredentials_loop_sound rt u cfgs : forall c cfgs',
  findCredentials_loop rt u cfgs = (Return (Some c), cfgs') ->
  is_textual_prefix (prefix c) (href u) /\ offered cfgs' c.
Proof.
  induction cfgs as [|s cfgs IH]; intros c cfgs' H; simpl in H; [done|].
  assert (forall rest' s', offered rest' c -> offered (s' :: rest') c) as Hweaken.
  { intros rest' s' [Hin|(f & v & es & Hin & Hrest)].
    - left. by right.
    - right. exists f, v, es. split; [by right | done]. }
  destruct s as [c0|f].
  - destruct (startsWith (href u) (prefix c0)) eqn:Hc.
    + injection H as <- <-. split; [by apply startsWith_true|]. left. by left.
    + destruct (findCredentials_loop rt u cfgs) as [r0 rest'] eqn:Hrest.
      injection H as -> <-. destruct (IH _ _ eq_refl) as [Hp Ho]. split; [done|].
      by apply Hweaken.
  - destruct (FsConfigFetcher_findCredentials rt u f) as [r0 f'] eqn:Hf.
    destruct r0 as [[cs|]|e]; [| |done].
    + injection H as <- <-.
      destruct (fetcher_findCredentials_Return _ _ _ _ _ Hf) as (p & Hp & Hres).
      apply resume_findCredentials_Some in Hres as (v & es & -> & Hin & Hs).
      split; [by apply startsWith_true|].
      right. exists f', v, es. split; [by left | done].
    + destruct (findCredentials_loop rt u cfgs) as [r1 rest'] eqn:Hrest.
      injection H as -> <-. destruct (IH _ _ eq_refl) as [Hp Ho]. split; [done|].
      by apply Hweaken.
Qed.

(** X4. Whatever descriptor a lookup returns, its prefix is a textual prefix
    of the URL's href, and the descriptor is on offer in the registry: it is
    a registered inline descriptor or an entry of a document that a
    registered loader now keeps. *)
Theorem findCredentials_sound
    (rt : Runtime) (u : URL) (w w1 : World) (c : AwsCredentialConfig)
    (Hfound : findCredentials rt u w = (Return (Some c), w1)) :
  is_textual_prefix (prefix c) (href u) /\ offered (configs (provider w1)) c.
Proof.
  rewrite findCredentials_unfold in Hfound. injection Hfound as Hr <-. simpl.
  apply (findCredentials_loop_sound rt u (configs (provider w))).
  rewrite <- Hr. by destruct (findCredentials_loop _ _ _).
Qed.

Lemma findCredentials_sound_witness :
  is_textual_prefix (prefix Demo.role_B) (href Demo.b_x)
  /\ offered (configs (provider (snd (findCredentials Demo.rt Demo.b_x Demo.three_sources))))
       Demo.role_B.
Proof.
  exact (findCredentials_sound Demo.rt Demo.b_x Demo.three_sources _ Demo.role_B eq_refl).
Defined.

Lemma findCredentials_again rt u w :
  Forall source_promises (configs (provider w)) ->
  findCredentials rt u (snd (findCredentials rt u w)) = findCredentials rt u w.
Proof.
  intros Hq. rewrite !findCredentials_unfold. simpl.
  destruct (findCredentials_loop rt u (configs (provider w))) as [r cfgs'] eqn:Hl.
  simpl. by destruct (findCredentials_loop_again _ _ _ _ _ Hq Hl) as [-> _].
Qed.

Lemma after_miss_configs cs c w1 :
  configs (provider (after_miss cs c w1)) = configs (provider w1).
Proof. unfold after_miss, notify. simpl. by destruct (onFileSystemCreated (provider w1)). Qed.

Lemma after_lookup_after_miss cs c w1 :
  after_lookup (configs (provider w1)) (after_miss cs c w1) = after_miss cs c w1.
Proof.
  unfold after_miss, notify, after_lookup. simpl.
  by destruct (onFileSystemCreated (provider w1)).
Qed.

(** X5. Repeating a lookup changes nothing, as long as every loader has its
    slot set or a read that returns a promise: a second [find] for the same
    URL leaves the provider, the constructions and the callback calls as the
    first left them; after a first [find] that built a client, the second
    returns that client; and when the callback does not throw, the second
    gives the very result of the first, be it a client, none or an error. *)
Theorem find_again (rt : Runtime) (u : URL) (w : World)
    (Hquiet : Forall source_promises (configs (provider w))) :
  snd (find rt u (snd (find rt u w))) = snd (find rt u w)
  /\ (forall cs, fst (findCredentials rt u w) = Return (Some cs) ->
        fileSystems (provider w) !! cacheKey cs = None ->
        fst (find rt u (snd (find rt u w)))
        = Return (Some (fst (createFileSystem rt cs (snd (findCredentials rt u w))))))
  /\ ((forall cb cs c, onFileSystemCreated (provider w) = Some cb -> raised cb cs c = None) ->
      find rt u (snd (find rt u w)) = find rt u w).
Proof.
  pose proof (findCredentials_again rt u w Hquiet) as Hagain.
  destruct (findCredentials rt u w) as [r w1] eqn:Hcs. simpl in Hagain.
  destruct (findCredentials_frame _ _ _ _ _ Hcs) as [cfgs Hw1].
  assert (forall cs, r = Return (Some cs) ->
            fileSystems (provider w) !! cacheKey cs = None ->
            find rt u (snd (find rt u w))
            = (Return (Some (fst (createFileSystem rt cs w1))), snd (find rt u w))) as Hmiss.
  { intros cs -> Hc. rewrite (find_miss _ _ _ _ _ Hcs Hc). simpl.
    set (c := fst (createFileSystem rt cs w1)).
    assert (findCredentials rt u (after_miss cs c w1)
            = (Return (Some cs), after_miss cs c w1)) as Hcs2.
    { rewrite findCredentials_unfold in Hagain. injection Hagain as Hr Hw.
      rewrite findCredentials_unfold, after_miss_configs, Hr. f_equal.
      apply (f_equal (fun x => configs (provider x))) in Hw. simpl in Hw.
      rewrite Hw. apply after_lookup_after_miss. }
    apply (find_hit _ _ _ _ _ _ Hcs2).
    destruct (after_miss_fields cs c w1) as (-> & _). apply lookup_insert_eq. }
  destruct r as [[cs|]|e].
  - destruct (fileSystems (provider w) !! cacheKey cs) as [c|] eqn:Hc.
    + assert (find rt u w1 = (Return (Some c), w1)) as Hsecond.
      { apply (find_hit _ _ _ cs); [exact Hagain|]. by subst w1. }
      rewrite (find_hit _ _ _ _ _ _ Hcs Hc). simpl. rewrite Hsecond.
      split; [done|]. split; [|done]. intros cs' [= <-]. congruence.
    + rewrite (Hmiss cs eq_refl Hc). simpl. split; [done|]. split.
      * by intros cs' [= <-] _.
      * intros Hcb. rewrite (find_miss _ _ _ _ _ Hcs Hc). f_equal.
        unfold miss_outcome. destruct (onFileSystemCreated (provider w)) as [cb|]; [|done].
        by rewrite (Hcb cb cs _ eq_refl).
  - assert (find rt u w = (Return None, w1)) as Hfind by (unfold find; by rewrite Hcs).
    rewrite Hfind. simpl. assert (find rt u w1 = (Return None, w1)) as ->.
    { unfold find. by rewrite Hagain. }
    by repeat split.
  - assert (find rt u w = (Throw e, w1)) as Hfind by (unfold find; by rewrite Hcs).
    rewrite Hfind. simpl. assert (find rt u w1 = (Throw e, w1)) as ->.
    { unfold find. by rewrite Hagain. }
    by repeat split.
Qed.

Lemma find_again_witness :
  find Demo.rt Demo.b_x (snd (find Demo.rt Demo.b_x Demo.three_sources))
  = find Demo.rt Demo.b_x Demo.three_sources.
Proof.
  apply (find_again Demo.rt Demo.b_x Demo.three_sources).
  - apply Forall_cons_2; [exact I|].
    apply Forall_cons_2; [right; by eexists|].
    apply Forall_cons_2; [right; by eexists | apply Forall_nil_2].
  - intros cb cs c Hcb. discriminate Hcb.
Defined.

(** X6. A lookup never adds, removes or reorders sources: after [find] the
    registry has the same inline descriptors and the same loaders, each with
    its location and its files, in the same order; the default session
    duration, the version and the callback are as before. *)
Theorem find_keeps_sources (rt : Runtime) (u : URL) (w : World) :
  map source_shape (configs (provider (snd (find rt u w))))
    = map source_shape (configs (provider w))
  /\ defaultSessionDuration (provider (snd (find rt u w)))
     = defaultSessionDuration (provider w)
  /\ version (provider (snd (find rt u w))) = version (provider w)
  /\ onFileSystemCreated (provider (snd (find rt u w)))
     = onFileSystemCreated (provider w).
Proof.
  unfold find. rewrite findCredentials_unfold.
  pose proof (findCredentials_loop_shape rt u (configs (provider w))) as Hshape.
  destruct (findCredentials_loop rt u (configs (provider w))) as [r cfgs']. simpl in *.
  destruct r as [[cs|]|e]; simpl; try done.
  destruct (fileSystems (provider w) !! cacheKey cs); simpl; [done|].
  unfold notify. simpl.
  destruct (onFileSystemCreated (provider w)) as [cb|] eqn:Hcb; simpl;
    [destruct (raised cb cs _); simpl|]; by rewrite ?Hcb.
Qed.

(** X7. Registering more sources never changes an answer already given: when
    a lookup returns a descriptor or fails, it returns the same after any
    further [register] or [registerConfig].  When it returns none, a
    descriptor registered next is returned (with [type] set to [s3]) exactly
    when its prefix is a prefix of the href; so an empty prefix catches every
    URL that nothing before it matched. *)
Theorem registration_keeps_answers
    (rt : Runtime) (u : URL) (w : World)
    (f : AwsCredentialConfig) (l : URL) (disk : FileSystem) :
  (fst (findCredentials rt u w) <> Return None ->
   fst (findCredentials rt u (register f w)) = fst (findCredentials rt u w)
   /\ fst (findCredentials rt u (registerConfig l disk w)) = fst (findCredentials rt u w))
  /\ (fst (findCredentials rt u w) = Return None ->
      fst (findCredentials rt u (register f w))
      = Return (if startsWith (href u) (prefix f)
                then Some {| prefix := prefix f; roleArn := roleArn f;
                             externalId := externalId f;
                             roleSessionDuration := roleSessionDuration f;
                             type := Some "s3" |}
                else None))
  /\ (fst (findCredentials rt u w) = Return None -> prefix f = "" ->
      fst (findCredentials rt u (register f w))
      = Return (Some {| prefix := ""; roleArn := roleArn f;
                        externalId := externalId f;
                        roleSessionDuration := roleSessionDuration f;
                        type := Some "s3" |})).
Proof.
  rewrite !findCredentials_unfold. simpl.
  destruct (findCredentials_loop rt u (configs (provider w))) as [r cfgs'] eqn:Hl.
  simpl. split; [|split].
  - intros Hr. by rewrite !(findCredentials_loop_app_answer _ _ _ _ _ _ Hl Hr).
  - intros ->. rewrite (findCredentials_loop_app_None _ _ _ _ _ Hl). simpl.
    by destruct (startsWith (href u) (prefix f)).
  - intros -> Hp. rewrite (findCredentials_loop_app_None _ _ _ _ _ Hl). simpl.
    by rewrite Hp.
Qed.

Lemma registration_keeps_answers_witness :
  fst (findCredentials Demo.rt Demo.b_x (register Demo_extra.catch_all Demo.two_sources))
    = Return (Some Demo.role_B)
  /\ fst (findCredentials Demo.rt Demo.other_x (register Demo_extra.catch_all Demo.two_sources))
    = Return (Some {| prefix := ""; roleArn := "role-default"; externalId := None;
                      roleSessionDuration := Some 900; type := Some "s3" |}).
Proof.
  destruct (registration_keeps_answers Demo.rt Demo.b_x Demo.two_sources
              Demo_extra.catch_all Demo.cfg_loc Demo.disk) as (Hkeep & _ & _).
  destruct (registration_keeps_answers Demo.rt Demo.other_x Demo.two_sources
              Demo_extra.catch_all Demo.cfg_loc Demo.disk) as (_ & _ & Hcatch).
  split.
  - exact (proj1 (Hkeep ltac:(discriminate))).
  - exact (Hcatch eq_refl eq_refl).
Defined.

(** X8. A registry of inline descriptors alone never fails and is not
    changed by lookups: [findCredentials] returns the first descriptor whose
    prefix the href starts with, or none (always none for an empty registry),
    and the provider is exactly as before. *)
Theorem inline_registry_is_pure
    (rt : Runtime) (u : URL) (w : World) (es : list AwsCredentialConfig)
    (Hinline : configs (provider w) = map Inline es) :
  findCredentials rt u w = (Return (scan_prefixes (href u) es), w)
  /\ (es = [] -> find rt u w = (Return None, w)).
Proof.
  assert (findCredentials rt u w = (Return (scan_prefixes (href u) es), w)) as Hw.
  { rewrite findCredentials_unfold, Hinline, findCredentials_loop_inline. simpl.
    f_equal. rewrite <- Hinline. by destruct w as [[]]. }
  split; [exact Hw|]. intros ->. unfold find. by rewrite Hw.
Qed.

Lemma inline_registry_is_pure_witness :
  findCredentials Demo.rt Demo.key_txt Demo_roles.two_prefixes
  = (Return (Some Demo.role_A_s3), Demo_roles.two_prefixes).
Proof.
  exact (proj1 (inline_registry_is_pure Demo.rt Demo.key_txt Demo_roles.two_prefixes
                  [Demo.role_A_s3;
                   {| prefix := "s3://bucket-c/"; roleArn := "role-A"; externalId := None;
                      roleSessionDuration := None; type := Some "s3" |}]
                  eq_refl)).
Defined.

(** ** What a provider keeps over its whole life *)

Lemma exec_all_invariant (P : World -> Prop) (Q : Op -> Prop) rt
    (Hstep : forall op w, Q op -> P w -> P (exec rt op w)) (ops : list Op) :
  Forall Q ops -> forall w, P w -> P (exec_all rt ops w).
Proof.
  induction 1 as [|op ops Hop _ IH]; intros w Hw; simpl; [done|].
  apply IH. by apply Hstep.
Qed.

Lemma Forall_True_ops (ops : list Op) : Forall (fun _ => True) ops.
Proof. by apply Forall_forall. Qed.

(** The cases of [find], with the world each leaves. *)
Lemma find_cases rt u w :
  (exists cfgs, snd (find rt u w) = after_lookup cfgs w)
  \/ (exists cfgs cs,
        fileSystems (provider w) !! cacheKey cs = None
        /\ snd (find rt u w)
           = after_miss cs (fst (createFileSystem rt cs (after_lookup cfgs w)))
               (after_lookup cfgs w)).
Proof.
  destruct (findCredentials rt u w) as [r w1] eqn:Hcs.
  destruct (findCredentials_frame _ _ _ _ _ Hcs) as [cfgs ->].
  destruct r as [[cs|]|e].
  - destruct (fileSystems (provider w) !! cacheKey cs) as [c|] eqn:Hc.
    + left. exists cfgs. by rewrite (find_hit _ _ _ _ _ _ Hcs Hc).
    + right. exists cfgs, cs. split; [done|]. by rewrite (find_miss _ _ _ _ _ Hcs Hc).
  - left. exists cfgs. unfold find. by rewrite Hcs.
  - left. exists cfgs. unfold find. by rewrite Hcs.
Qed.

Lemma history_inv_find rt d u w : history_inv d w -> history_inv d (snd (find rt u w)).
Proof.
  intros (Hd & Hlog & Hcache & Hci).
  pose proof (cache_inv_find rt u w Hci) as Hci'.
  destruct (find_cases rt u w) as [[cfgs Hw]|(cfgs & cs & Hmiss & Hw)];
    rewrite Hw in *; [done|].
  set (w1 := after_lookup cfgs w) in *.
  set (c := fst (createFileSystem rt cs w1)) in *.
  destruct (after_miss_fields cs c w1) as (Hfs & Hcr & _).
  split; [|split; [|split; [|done]]].
  - unfold after_miss, notify. simpl.
    destruct (onFileSystemCreated (provider w)) eqn:E; simpl; congruence.
  - rewrite Hcr. intros i cs0 c0 Hi.
    apply lookup_app_Some in Hi as [Hi|[Hlen Hi]]; [by apply Hlog|].
    apply list_lookup_singleton_Some in Hi as [Hi0 [= <- <-]].
    split; [simpl in *; lia|]. unfold built_from. simpl. by rewrite Hd.
  - rewrite Hfs, Hcr. intros k c0 Hk.
    destruct (decide (cacheKey cs = k)) as [<-|Hne].
    + rewrite lookup_insert_eq in Hk. injection Hk as <-.
      exists cs. split; [|done]. apply elem_of_app. right. by left.
    + rewrite lookup_insert_ne in Hk by done.
      destruct (Hcache k c0 Hk) as (cs0 & Hin & Hkey).
      exists cs0. split; [|done]. apply elem_of_app. by left.
Qed.

Lemma history_inv_new d cb : history_inv d (new_AwsS3CredentialProvider d cb).
Proof.
  repeat split; try done.
  - constructor.
  - by intros ? ? ?%elem_of_nil.
Qed.

Lemma history_inv_exec_all rt d cb ops :
  history_inv d (exec_all rt ops (new_AwsS3CredentialProvider d cb)).
Proof.
  apply (exec_all_invariant (history_inv d) (fun _ => True));
    [| apply Forall_True_ops | apply history_inv_new].
  intros [f|l disk|u] w _ Hw; simpl; [done | done | by apply history_inv_find].
Qed.

Lemma size_inv_find rt u w :
  size (fileSystems (provider w)) = length (created w) ->
  size (fileSystems (provider (snd (find rt u w)))) = length (created (snd (find rt u w))).
Proof.
  intros Hsize.
  destruct (find_cases rt u w) as [[cfgs ->]|(cfgs & cs & Hmiss & ->)]; [done|].
  destruct (after_miss_fields cs (fst (createFileSystem rt cs (after_lookup cfgs w)))
              (after_lookup cfgs w)) as (-> & -> & _).
  simpl. rewrite map_size_insert_None by done. rewrite length_app. simpl. lia.
Qed.

(** X9. The cache only grows: whatever is done with a provider afterwards
    (registrations and lookups), a client once cached stays cached under its
    key; nothing is evicted or replaced. *)
Theorem cache_only_grows (rt : Runtime) (ops : list Op) (w : World) :
  fileSystems (provider w) ⊆ fileSystems (provider (exec_all rt ops w)).
Proof.
  apply (exec_all_invariant
           (fun w' => fileSystems (provider w) ⊆ fileSystems (provider w'))
           (fun _ => True)); [| apply Forall_True_ops | done].
  intros [f|l disk|u] w' _ Hw'; simpl; [done | done |].
  destruct (find_cases rt u w') as [[cfgs ->]|(cfgs & cs & Hmiss & ->)]; [done|].
  destruct (after_miss_fields cs (fst (createFileSystem rt cs (after_lookup cfgs w')))
              (after_lookup cfgs w')) as (-> & _).
  simpl. etrans; [exact Hw'|]. by apply insert_subseteq.
Qed.

(** X10. After any sequence of operations on a new provider the cache holds
    exactly the clients that were constructed: as many entries as
    constructions; the i-th constructed client has identity [i] (so two
    constructions are never the same instance), carries the role and external
    id of its descriptor and the descriptor's session duration, or the
    provider's default when the descriptor has none, and is cached under the
    descriptor's key; and every cached client is one of them. *)
Theorem cache_is_the_constructions
    (rt : Runtime) (d : option Z) (cb : option Callback) (ops : list Op) :
  let w := exec_all rt ops (new_AwsS3CredentialProvider d cb) in
  size (fileSystems (provider w)) = length (created w)
  /\ (forall i cs c, created w !! i = Some (cs, c) ->
        oid c = i /\ built_from d cs c
        /\ fileSystems (provider w) !! cacheKey cs = Some c)
  /\ (forall k c, fileSystems (provider w) !! k = Some c ->
        exists cs, (cs, c) ∈ created w /\ cacheKey cs = k).
Proof.
  intros w. destruct (history_inv_exec_all rt d cb ops) as (_ & Hlog & Hcache & _ & Hin).
  fold w in Hlog, Hcache, Hin. split; [|split; [|done]].
  - apply (exec_all_invariant
             (fun w' => size (fileSystems (provider w')) = length (created w'))
             (fun _ => True)); [| apply Forall_True_ops | done].
    intros [f|l disk|u] w' _ Hw'; simpl; [done | done | by apply size_inv_find].
  - intros i cs c Hi. destruct (Hlog i cs c Hi) as [Hoid Hbuilt].
    split; [done|]. split; [done|]. apply Hin. by eapply list_elem_of_lookup_2.
Qed.

(** X11. The client [find] returns was constructed for a descriptor with the
    same key as the one the lookup resolved: it carries that descriptor's
    role, external id and session duration (or the provider's default). *)
Theorem find_returns_client_of_key
    (rt : Runtime) (d : option Z) (cb : option Callback) (ops : list Op)
    (u : URL) (cs : AwsCredentialConfig) (c : FsAwsS3)
    (Hcs : fst (findCredentials rt u (exec_all rt ops (new_AwsS3CredentialProvider d cb)))
           = Return (Some cs))
    (Hfind : fst (find rt u (exec_all rt ops (new_AwsS3CredentialProvider d cb)))
             = Return (Some c)) :
  exists cs0, cacheKey cs0 = cacheKey cs /\ built_from d cs0 c.
Proof.
  set (w := exec_all rt ops (new_AwsS3CredentialProvider d cb)) in *.
  destruct (history_inv_exec_all rt d cb ops) as (Hd & Hlog & Hcache & _).
  fold w in Hd, Hlog, Hcache.
  destruct (findCredentials rt u w) as [r w1] eqn:Hw1. simpl in Hcs. subst r.
  destruct (fileSystems (provider w) !! cacheKey cs) as [c0|] eqn:Hc.
  - rewrite (find_hit _ _ _ _ _ _ Hw1 Hc) in Hfind. injection Hfind as ->.
    destruct (Hcache _ _ Hc) as (cs0 & Hin & Hkey).
    apply list_elem_of_lookup_1 in Hin as [i Hi].
    exists cs0. split; [done|]. by apply (Hlog i).
  - rewrite (find_miss _ _ _ _ _ Hw1 Hc) in Hfind. simpl in Hfind.
    apply miss_outcome_Return in Hfind as ->.
    exists cs. split; [done|]. unfold built_from. simpl.
    destruct (findCredentials_frame _ _ _ _ _ Hw1) as [cfgs ->]. simpl. by rewrite Hd.
Qed.

Lemma find_returns_client_of_key_witness :
  exists cs0,
    cacheKey cs0 = cacheKey Demo.role_A_s3
    /\ built_from (Some 3600) cs0
         {| oid := 0; RoleArn := "role-A"; ExternalId := None;
            RoleSessionName := "fsa-v3-1700000000000-r0";
            DurationSeconds := Some 3600 |}.
Proof.
  exact (find_returns_client_of_key Demo.rt (Some 3600) None
           [OpRegister Demo.role_A; OpFind Demo.key_txt] Demo.key_txt
           Demo.role_A_s3 _ eq_refl eq_refl).
Defined.

(** C4. However the provider was used before (any sequence of [register],
    [registerConfig] and [find] on a new provider): no identity key has had
    two clients built for it, and every client built is still the cache entry
    of its key.  When two lookups in a row resolve to descriptors with the
    same [roleArn], [externalId] and [roleSessionDuration], whatever their
    prefixes, there is one client [c] such that: after the first [find], [c]
    is the cache entry of their key and is a client that was constructed for
    that key; if the first [find] missed the cache, [c] is the client it
    constructed (the one construction it logged) and it returned [c], unless
    the callback threw; if it hit, [c] is the entry it found and returned;
    and the second [find] returns [c], constructs nothing and leaves the
    cache as it is. *)
Theorem same_role_same_client
    (rt : Runtime) (d : option Z) (cb : option Callback) (ops : list Op) :
  let w := exec_all rt ops (new_AwsS3CredentialProvider d cb) in
  NoDup (map (fun x => cacheKey (fst x)) (created w))
  /\ (forall cs c, (cs, c) ∈ created w ->
        fileSystems (provider w) !! cacheKey cs = Some c)
  /\ forall u1 u2 cs1 cs2 wa wb,
       findCredentials rt u1 w = (Return (Some cs1), wa) ->
       findCredentials rt u2 (snd (find rt u1 w)) = (Return (Some cs2), wb) ->
       roleArn cs1 = roleArn cs2 ->
       externalId cs1 = externalId cs2 ->
       roleSessionDuration cs1 = roleSessionDuration cs2 ->
       exists c,
         fileSystems (provider (snd (find rt u1 w))) !! cacheKey cs1 = Some c
         /\ (exists cs0, (cs0, c) ∈ created (snd (find rt u1 w))
                         /\ cacheKey cs0 = cacheKey cs1
                         /\ built_from d cs0 c)
         /\ (fileSystems (provider w) !! cacheKey cs1 = None ->
             c = fst (createFileSystem rt cs1 wa)
             /\ created (snd (find rt u1 w)) = created w ++ [(cs1, c)]
             /\ fst (find rt u1 w)
                = miss_outcome (onFileSystemCreated (provider w)) cs1 c
             /\ ((forall f, onFileSystemCreated (provider w) = Some f ->
                            raised f cs1 c = None) ->
                 fst (find rt u1 w) = Return (Some c)))
         /\ (is_Some (fileSystems (provider w) !! cacheKey cs1) ->
             fileSystems (provider w) !! cacheKey cs1 = Some c
             /\ fst (find rt u1 w) = Return (Some c)
             /\ created (snd (find rt u1 w)) = created w)
         /\ find rt u2 (snd (find rt u1 w)) = (Return (Some c), wb)
         /\ fileSystems (provider wb) = fileSystems (provider (snd (find rt u1 w)))
         /\ created wb = created (snd (find rt u1 w)).
Proof.
  intros w.
  pose proof (history_inv_exec_all rt d cb ops) as Hinv. fold w in Hinv.
  destruct Hinv as (Hd & Hlog & Hcache & Hnd & Hin).
  split; [exact Hnd|]. split; [exact Hin|].
  intros u1 u2 cs1 cs2 wa wb H1 H2 Hr He Hdur.
  pose proof (cacheKey_same_role _ _ Hr He Hdur) as Hkey.
  pose proof (history_inv_find rt d u1 w (conj Hd (conj Hlog (conj Hcache (conj Hnd Hin)))))
    as (_ & Hlog1 & Hcache1 & _).
  destruct (findCredentials_frame _ _ _ _ _ H1) as [cfgs1 Hwa].
  destruct (findCredentials_frame _ _ _ _ _ H2) as [cfgs2 Hwb].
  assert (forall c, fileSystems (provider (snd (find rt u1 w))) !! cacheKey cs1 = Some c ->
            (exists cs0, (cs0, c) ∈ created (snd (find rt u1 w))
                         /\ cacheKey cs0 = cacheKey cs1 /\ built_from d cs0 c)
            /\ find rt u2 (snd (find rt u1 w)) = (Return (Some c), wb)
            /\ fileSystems (provider wb) = fileSystems (provider (snd (find rt u1 w)))
            /\ created wb = created (snd (find rt u1 w))) as Hrest.
  { intros c Hc. split; [|split; [|by subst wb]].
    - destruct (Hcache1 _ _ Hc) as (cs0 & Hin0 & Hk0).
      exists cs0. split; [done|]. split; [done|].
      apply list_elem_of_lookup_1 in Hin0 as [i Hi]. by apply (Hlog1 i).
    - apply (find_hit _ _ _ _ _ _ H2). by rewrite <- Hkey. }
  destruct (fileSystems (provider w) !! cacheKey cs1) as [c0|] eqn:Hc.
  - assert (find rt u1 w = (Return (Some c0), wa)) as Hfind
      by exact (find_hit _ _ _ _ _ _ H1 Hc).
    exists c0. rewrite Hfind in *. simpl in *.
    assert (fileSystems (provider wa) !! cacheKey cs1 = Some c0) as Hc1 by by subst wa.
    destruct (Hrest c0 Hc1) as (Hex & Hsecond & Hfs & Hcr).
    split; [done|]. split; [done|]. split; [done|].
    split; [intros _; by subst wa|]. done.
  - pose proof (find_miss _ _ _ _ _ H1 Hc) as Hfind.
    set (c := fst (createFileSystem rt cs1 wa)) in *.
    destruct (after_miss_fields cs1 c wa) as (Hfs1 & Hcr1 & _).
    exists c. rewrite Hfind in *. simpl in *.
    assert (fileSystems (provider (after_miss cs1 c wa)) !! cacheKey cs1 = Some c) as Hc1.
    { rewrite Hfs1. apply lookup_insert_eq. }
    destruct (Hrest c Hc1) as (Hex & Hsecond & Hfs & Hcr).
    split; [done|]. split; [done|]. split.
    { intros _. split; [done|]. split; [rewrite Hcr1; by subst wa|]. split; [done|].
      intros Hq. unfold miss_outcome.
      destruct (onFileSystemCreated (provider w)) as [f|]; [|done].
      by rewrite (Hq f eq_refl). }
    split; [by intros [? ?]|]. done.
Qed.

Lemma same_role_same_client_witness :
  exists c,
    fileSystems (provider (snd (find Demo.rt Demo.key_txt Demo_roles.two_prefixes)))
      !! cacheKey Demo.role_A_s3 = Some c
    /\ RoleArn c = "role-A"
    /\ fst (find Demo.rt Demo.key_txt Demo_roles.two_prefixes) = Return (Some c)
    /\ fst (find Demo.rt Demo_roles.c_x
              (snd (find Demo.rt Demo.key_txt Demo_roles.two_prefixes)))
       = Return (Some c)
    /\ created (snd (find Demo.rt Demo_roles.c_x
                       (snd (find Demo.rt Demo.key_txt Demo_roles.two_prefixes))))
       = created (snd (find Demo.rt Demo.key_txt Demo_roles.two_prefixes)).
Proof.
  destruct (proj2 (proj2 (same_role_same_client Demo.rt None None
                     [OpRegister Demo.role_A; OpRegister Demo_roles.role_A_other]))
              Demo.key_txt Demo_roles.c_x _ _ _ _
              eq_refl eq_refl eq_refl eq_refl eq_refl)
    as (c & Hc & _ & Hmiss & _ & Hsecond & _ & Hcr).
  destruct (Hmiss eq_refl) as (Hbuilt & _ & Hfirst & _).
  exists c. split; [exact Hc|]. split; [by rewrite Hbuilt|].
  split; [exact Hfirst|]. split; [exact (f_equal fst Hsecond) | exact Hcr].
Defined.

Lemma notified_inv_find rt cb u w :
  notified_inv cb w -> notified_inv cb (snd (find rt u w)).
Proof.
  intros [Hcb Hn].
  destruct (find_cases rt u w) as [[cfgs ->]|(cfgs & cs & Hmiss & ->)]; [done|].
  set (w1 := after_lookup cfgs w).
  set (c := fst (createFileSystem rt cs w1)).
  destruct (after_miss_fields cs c w1) as (_ & Hcr & Hno).
  split.
  - unfold after_miss, notify. simpl.
    destruct (onFileSystemCreated (provider w)) eqn:E; simpl; congruence.
  - rewrite Hcr, Hno. simpl. rewrite Hcb, Hn.
    destruct cb; [by rewrite map_app | done].
Qed.

(** X12. The callback is called once per construction and never otherwise:
    after any sequence of operations on a new provider the calls of the
    callback are, in order, the constructions, each with its descriptor and
    its client; without a callback nothing is called. *)
Theorem callback_once_per_construction
    (rt : Runtime) (d : option Z) (cb : option Callback) (ops : list Op) :
  notified (exec_all rt ops (new_AwsS3CredentialProvider d cb))
  = match cb with
    | Some f => map (fun x => (f, fst x, snd x))
                    (created (exec_all rt ops (new_AwsS3CredentialProvider d cb)))
    | None => []
    end.
Proof.
  apply (exec_all_invariant (notified_inv cb) (fun _ => True));
    [| apply Forall_True_ops | by destruct cb].
  intros [f|l disk|u] w _ Hw; simpl; [done | done | by apply notified_inv_find].
Qed.

(** ** Loaders over the life of a provider *)

Lemma findCredentials_loop_Forall (P : Source -> Prop) rt u
    (Hcall : forall f r f', P (Fetcher f) ->
               FsConfigFetcher_findCredentials rt u f = (r, f') -> P (Fetcher f')) :
  forall cfgs, Forall P cfgs -> Forall P (snd (findCredentials_loop rt u cfgs)).
Proof.
  induction 1 as [|s cfgs Hs Hrest IH]; simpl; [done|].
  destruct s as [c|f].
  - destruct (startsWith (href u) (prefix c)); simpl; [by constructor|].
    destruct (findCredentials_loop rt u cfgs) as [r rest']. simpl in *. by constructor.
  - destruct (FsConfigFetcher_findCredentials rt u f) as [r0 f'] eqn:Hf.
    pose proof (Hcall _ _ _ Hs Hf) as Hf'.
    destruct r0 as [[cs|]|e]; simpl; try by constructor.
    destruct (findCredentials_loop rt u cfgs) as [r rest']. simpl in *. by constructor.
Qed.

Lemma find_configs rt u w :
  configs (provider (snd (find rt u w)))
  = snd (findCredentials_loop rt u (configs (provider w))).
Proof.
  unfold find. rewrite findCredentials_unfold.
  destruct (findCredentials_loop rt u (configs (provider w))) as [r cfgs']. simpl.
  destruct r as [[cs|]|e]; simpl; try done.
  destruct (fileSystems (provider w) !! cacheKey cs); simpl; [done|].
  unfold notify. simpl.
  destruct (onFileSystemCreated (provider w)) as [cb|]; simpl;
    [by destruct (raised cb cs _)|done].
Qed.

Lemma sources_inv_exec (P : Source -> Prop) (Q : Op -> Prop) rt
    (Hcall : forall u f r f', P (Fetcher f) ->
               FsConfigFetcher_findCredentials rt u f = (r, f') -> P (Fetcher f'))
    (Hinline : forall c, P (Inline c))
    (Hnew : forall l disk, Q (OpRegisterConfig l disk) ->
              P (Fetcher (new_FsConfigFetcher l disk)))
    op w :
  Q op -> Forall P (configs (provider w)) -> Forall P (configs (provider (exec rt op w))).
Proof.
  intros Hop Hw. destruct op as [f|l disk|u]; simpl.
  - apply Forall_app. split; [done|]. by repeat constructor.
  - apply Forall_app. split; [done|]. repeat constructor. by apply Hnew.
  - rewrite find_configs. by apply findCredentials_loop_Forall; [apply Hcall|].
Qed.

Lemma slot_is_fetched_call rt u f r f' :
  slot_is_fetched rt (Fetcher f) ->
  FsConfigFetcher_findCredentials rt u f = (r, f') ->
  slot_is_fetched rt (Fetcher f').
Proof.
  intros Hf.
  destruct (fetcher_findCredentials_cases rt u f)
    as [(Hnone & _ & ->)|[(e & Hnone & _ & ->)|(p & Hp & ->)]];
    intros [= <- <-]; [by right | by left | done].
Qed.

Lemma read_at_most_once_call rt u f r f' :
  read_at_most_once (Fetcher f) /\ source_promises (Fetcher f) ->
  FsConfigFetcher_findCredentials rt u f = (r, f') ->
  read_at_most_once (Fetcher f') /\ source_promises (Fetcher f').
Proof.
  intros [Hf Hq].
  destruct (fetcher_findCredentials_cases rt u f)
    as [(Hnone & _ & ->)|[(e & Hnone & Hr & ->)|(p & Hp & ->)]];
    intros [= <- <-]; [| |done].
  - simpl in *. rewrite Hnone in Hf. rewrite Hf. split; [done | by left].
  - destruct Hq as [[p Hp]|[p Hp]]; congruence.
Qed.

(** X13. A loader whose read returns a promise reads its document at most
    once, however many lookups are made: when every file system handed to
    [registerConfig] comes without history and returns a promise for the
    read of the location, then after any sequence of operations each
    registered loader has read nothing while its slot is unset, and exactly
    its own location, once, when the slot is set. *)
Theorem loaders_read_at_most_once
    (rt : Runtime) (d : option Z) (cb : option Callback) (ops : list Op)
    (Hfresh : Forall fresh_handle ops) :
  Forall read_at_most_once
    (configs (provider (exec_all rt ops (new_AwsS3CredentialProvider d cb)))).
Proof.
  eapply Forall_impl;
    [|exact (fun s (H : read_at_most_once s /\ source_promises s) => proj1 H)].
  apply (exec_all_invariant
           (fun w => Forall (fun s => read_at_most_once s /\ source_promises s)
                            (configs (provider w))) fresh_handle);
    [| done | by constructor].
  intros op w Hop Hw.
  apply (sources_inv_exec (fun s => read_at_most_once s /\ source_promises s)
           fresh_handle rt (fun u => read_at_most_once_call rt u)); try done.
  intros l disk [Hreads Hp]. split; [done | by right].
Qed.

Lemma loaders_read_at_most_once_witness :
  Forall read_at_most_once
    (configs (provider (exec_all Demo.rt
       [OpRegisterConfig Demo.cfg_loc Demo.disk; OpRegisterConfig Demo.old_loc Demo.disk;
        OpFind Demo.b_x; OpFind Demo.other_x; OpFind Demo.b_x]
       (new_AwsS3CredentialProvider None None)))).
Proof.
  apply loaders_read_at_most_once.
  repeat (first [apply Forall_nil_2 | apply Forall_cons_2]); simpl; try exact I;
    (split; [reflexivity | by eexists]).
Defined.

(** X14. A loader only ever keeps what read, parse and validation of its own
    location gave: after any sequence of operations on a new provider the
    slot of every registered loader is unset or holds that outcome, so a
    document that is kept is always a version 2 document with an array of
    prefixes. *)
Theorem kept_documents_are_validated
    (rt : Runtime) (d : option Z) (cb : option Callback) (ops : list Op) :
  let w := exec_all rt ops (new_AwsS3CredentialProvider d cb) in
  Forall (slot_is_fetched rt) (configs (provider w))
  /\ forall f cfg, Fetcher f ∈ configs (provider w) ->
       _config f = Some (Return cfg) ->
       exists es, cfg = CfgObject (Some (JsNumber 2)) (PrefixesArray es).
Proof.
  intros w.
  assert (Forall (slot_is_fetched rt) (configs (provider w))) as Hall.
  { apply (exec_all_invariant
             (fun w => Forall (slot_is_fetched rt) (configs (provider w)))
             (fun _ => True)); [| apply Forall_True_ops | by constructor].
    intros op w' _ Hw'.
    apply (sources_inv_exec (slot_is_fetched rt) (fun _ => True) rt
             (fun u => slot_is_fetched_call rt u)); try done.
    intros l disk _. by left. }
  split; [exact Hall|]. intros f cfg Hin Hcfg.
  rewrite Forall_forall in Hall. destruct (Hall _ Hin) as [Hnone|Hsome]; [congruence|].
  rewrite Hsome in Hcfg. injection Hcfg as Hcfg. by apply fetched_Return in Hcfg.
Qed.

Lemma findCredentials_loop_None_asks_all rt u cfgs : forall cfgs',
  findCredentials_loop rt u cfgs = (Return None, cfgs') ->
  forall f, Fetcher f ∈ cfgs' ->
    exists v es, _config f = Some (Return (CfgObject v (PrefixesArray es)))
                 /\ scan_prefixes (href u) es = None.
Proof.
  induction cfgs as [|s cfgs IH]; intros cfgs' H f Hin; simpl in H.
  - injection H as <-. by apply elem_of_nil in Hin.
  - destruct s as [c|f0].
    + destruct (startsWith (href u) (prefix c)); [done|].
      destruct (findCredentials_loop rt u cfgs) as [r rest'] eqn:Hrest.
      injection H as -> <-. apply elem_of_cons in Hin as [Hin|Hin]; [done|].
      by apply (IH _ eq_refl).
    + destruct (FsConfigFetcher_findCredentials rt u f0) as [r0 f'] eqn:Hf.
      destruct r0 as [[cs|]|e]; try done.
      destruct (findCredentials_loop rt u cfgs) as [r rest'] eqn:Hrest.
      injection H as -> <-. apply elem_of_cons in Hin as [[= ->]|Hin];
        [|by apply (IH _ eq_refl)].
      destruct (fetcher_findCredentials_Return _ _ _ _ _ Hf) as (p & Hp & Hres).
      destruct p as [[|v [|x|es]]|e]; simpl in Hres; try done.
      injection Hres as Hres. by exists v, es.
Qed.

(** X15. A lookup that returns none has asked every source: afterwards every
    registered loader holds a fetched document with an array of prefixes,
    none of which is a prefix of the href.  (So one URL that matches nothing
    makes the provider fetch all its documents.) *)
Theorem none_has_asked_every_loader
    (rt : Runtime) (u : URL) (w w1 : World)
    (Hnone : findCredentials rt u w = (Return None, w1)) :
  forall f, Fetcher f ∈ configs (provider w1) ->
    exists v es,
      _config f = Some (Return (CfgObject v (PrefixesArray es)))
      /\ Forall (fun b => ~ is_textual_prefix (prefix b) (href u)) es.
Proof.
  rewrite findCredentials_unfold in Hnone. injection Hnone as Hr <-. simpl.
  intros f Hin.
  destruct (findCredentials_loop_None_asks_all rt u (configs (provider w))
              (snd (findCredentials_loop rt u (configs (provider w))))) with (f := f)
    as (v & es & Hcfg & Hscan); [|done|].
  - rewrite <- Hr. by destruct (findCredentials_loop _ _ _).
  - exists v, es. split; [done|].
    apply scan_prefixes_None in Hscan. eapply Forall_impl; [exact Hscan|].
    intros b Hb. by apply startsWith_false.
Qed.

Lemma none_has_asked_every_loader_witness :
  exists v es,
    _config {| loc := Demo.cfg_loc;
               fs := {| files := files Demo.disk; throws := throws Demo.disk;
                              reads := [Demo.cfg_loc] |};
               _config := Some (fetched Demo.rt Demo.cfg_loc Demo.disk) |}
    = Some (Return (CfgObject v (PrefixesArray es)))
    /\ Forall (fun b => ~ is_textual_prefix (prefix b) (href Demo.other_x)) es.
Proof.
  apply (none_has_asked_every_loader Demo.rt Demo.other_x Demo.two_sources _ eq_refl).
  simpl. right. left.
Defined.

(** ** Names and keys *)

Lemma pretty_N_char_not_dash (d : N) : Ascii.eqb (pretty_N_char d) "-" = false.
Proof. unfold pretty_N_char. by repeat case_match. Qed.

Lemma pretty_N_go_no_dash (x : N) : forall s,
  no_dash s = true -> no_dash (pretty_N_go x s) = true.
Proof.
  induction (N.lt_wf_0 x) as [x _ IH]; intros s Hs.
  destruct (decide (x = 0)%N) as [->|Hx]; [by rewrite pretty_N_go_0|].
  rewrite pretty_N_go_step by by apply N.neq_0_lt_0.
  apply IH; [apply N.div_lt; lia|]. simpl. by rewrite pretty_N_char_not_dash.
Qed.

Lemma pretty_Z_no_dash (z : Z) : 0 <= z -> no_dash (pretty z) = true.
Proof.
  destruct z as [|x|x]; [done | | lia]. intros _.
  unfold pretty, pretty_Z, pretty, pretty_positive, pretty, pretty_N. simpl.
  by apply pretty_N_go_no_dash.
Qed.

Lemma split_at_dash (a a' r r' : string) :
  no_dash a = true -> no_dash a' = true ->
  a +:+ String "-" r = a' +:+ String "-" r' -> a = a' /\ r = r'.
Proof.
  revert a'. induction a as [|c a IH]; intros [|c' a'] Ha Ha' Heq; simpl in *.
  - by injection Heq.
  - injection Heq as <- _. by rewrite Ascii.eqb_refl in Ha'.
  - injection Heq as -> _. by rewrite Ascii.eqb_refl in Ha.
  - injection Heq as -> Heq.
    apply andb_true_iff in Ha as [_ Ha]. apply andb_true_iff in Ha' as [_ Ha'].
    destruct (IH a' Ha Ha' Heq) as [-> ->]. done.
Qed.

(** X16. Two session names made by one provider are equal only when both the
    clock and the random suffix were equal: with the clock not before the
    epoch, the name determines the time stamp and the suffix. *)
Theorem session_name_determines_time_and_suffix
    (rt : Runtime) (this : AwsS3CredentialProvider) (n m : nat)
    (Hn : 0 <= Date_now rt n) (Hm : 0 <= Date_now rt m)
    (Hsame : createRoleSessionName rt this n = createRoleSessionName rt this m) :
  Date_now rt n = Date_now rt m /\ Math_random_32 rt n = Math_random_32 rt m.
Proof.
  unfold createRoleSessionName in Hsame.
  apply (inj (String.append "fsa-")) in Hsame.
  apply (inj (String.append (version this))) in Hsame.
  apply (inj (String.append "-")) in Hsame.
  apply split_at_dash in Hsame as [Hd Hr]; [| by apply pretty_Z_no_dash..].
  split; [by apply (inj pretty) | done].
Qed.

Lemma session_name_determines_time_and_suffix_witness :
  Date_now Demo.rt 3 = Date_now Demo.rt 3
  /\ Math_random_32 Demo.rt 3 = Math_random_32 Demo.rt 3.
Proof.
  apply (session_name_determines_time_and_suffix Demo.rt
           (provider (new_AwsS3CredentialProvider None None)) 3 3);
    [by vm_compute | by vm_compute | reflexivity].
Defined.

(** X17. The key always tells session durations apart: two descriptors with
    the same role and the same external id have the same key exactly when
    they have the same session duration (an absent one differs from every
    number). *)
Theorem cacheKey_separates_durations (cs1 cs2 : AwsCredentialConfig)
    (Hrole : roleArn cs1 = roleArn cs2)
    (Hext : externalId cs1 = externalId cs2) :
  cacheKey cs1 = cacheKey cs2 <-> roleSessionDuration cs1 = roleSessionDuration cs2.
Proof.
  split; [|by apply cacheKey_same_role].
  unfold cacheKey. rewrite Hrole, Hext. intros Hkey.
  apply (inj (String.append (roleArn cs2))) in Hkey.
  apply (inj (String.append "__")) in Hkey.
  apply (inj (String.append (str_of_optional_string (externalId cs2)))) in Hkey.
  apply (inj (String.append "__")) in Hkey.
  destruct (roleSessionDuration cs1) as [d1|], (roleSessionDuration cs2) as [d2|];
    simpl in Hkey; try done.
  - f_equal. by apply (inj pretty).
  - by apply pretty_Z_not_undefined in Hkey.
  - symmetry in Hkey. by apply pretty_Z_not_undefined in Hkey.
Qed.

Lemma cacheKey_separates_durations_witness :
  cacheKey Demo.role_A = cacheKey Demo_roles.role_A_other
  <-> roleSessionDuration Demo.role_A = roleSessionDuration Demo_roles.role_A_other.
Proof.
  exact (cacheKey_separates_durations Demo.role_A Demo_roles.role_A_other eq_refl eq_refl).
Defined.

Lemma cacheKey_injective_plain_witness :
  roleArn Demo.role_A = roleArn Demo_roles.role_A_other
  /\ externalId Demo.role_A = externalId Demo_roles.role_A_other
  /\ roleSessionDuration Demo.role_A = roleSessionDuration Demo_roles.role_A_other.
Proof.
  exact (cacheKey_injective_plain Demo.role_A Demo_roles.role_A_other
           eq_refl eq_refl I I eq_refl).
Defined.
